(** * golang-moving-average: a ring buffer of float64 samples with rolling statistics

    A shallow embedding of [ma.go] (the ring store [movingStats]) and of the
    concurrency-safe wrapper [concurrentMovingStats], followed by the
    properties the specification states about them.

    Modelling choices, all taken from the Go source:
    - [float64] is Rocq's primitive binary64 float;
    - [int] is a 64-bit two's complement integer, written as a [Z] with the
      wrap-around of [+] and [-] spelled out ([wrap_int]);
    - a slice is a view (array, len, cap) on a backing array that lives in a
      heap [gmap loc (list float)], so that aliasing between the store's
      buffer, the slices handed to reducers and the copies returned by
      [Values] is visible;
    - a run-time panic is an outcome ([Panic]), as is a goroutine that blocks
      for ever on a lock ([Blocked]); the state reached when the panic is
      raised is kept;
    - a method with a pointer receiver is a computation over the pair of the
      receiver struct and the heap. *)

From Stdlib Require Import ZArith Floats Uint63.
From stdpp Require Import gmap list strings.

Open Scope Z_scope.

(** ** The Go run time *)

Inductive runtime_error :=
  | makeslice_len_out_of_range
  | index_out_of_range
  | slice_bounds_out_of_range
  | integer_divide_by_zero
  | unlock_of_unlocked_mutex.

Inductive exec (A : Type) :=
  | Ok (a : A)
  | Panic (e : runtime_error)
  | Blocked.
Arguments Ok {A} a.
Arguments Panic {A} e.
Arguments Blocked {A}.

(** Computations over a state [S] that may panic or block; the state at the
    point of the panic is returned with it. *)
Definition M (S A : Type) : Type := S → exec A * S.

Definition ret {S A} (a : A) : M S A := λ s, (Ok a, s).

Definition bind {S A B} (m : M S A) (k : A → M S B) : M S B :=
  λ s, match m s with
       | (Ok a, s') => k a s'
       | (Panic e, s') => (Panic e, s')
       | (Blocked, s') => (Blocked, s')
       end.

Definition lift {S A} (r : exec A) : M S A := λ s, (r, s).

Notation "x <- m ;; k" := (bind m (λ x, k))
  (at level 100, m at next level, right associativity, only parsing).
Notation "m ;;; k" := (bind m (λ _, k))
  (at level 100, right associativity, only parsing).

(** [defer d] in front of a body [m]: [d] runs when [m] returns and also when
    it panics, and the panic then goes on. *)
Definition defer {S A} (d : M S unit) (m : M S A) : M S A :=
  λ s, match m s with
       | (Ok a, s') => match d s' with
                       | (Ok _, s'') => (Ok a, s'')
                       | (Panic e, s'') => (Panic e, s'')
                       | (Blocked, s'') => (Blocked, s'')
                       end
       | (Panic e, s') => match d s' with
                          | (Ok _, s'') => (Panic e, s'')
                          | (Panic e', s'') => (Panic e', s'')
                          | (Blocked, s'') => (Blocked, s'')
                          end
       | (Blocked, s') => (Blocked, s')
       end.

(** *** int *)

Definition MaxInt : Z := 2 ^ 63 - 1.
Definition MinInt : Z := - 2 ^ 63.

Definition wrap_int (z : Z) : Z := (z + 2 ^ 63) mod 2 ^ 64 - 2 ^ 63.
Definition int_add (x y : Z) : Z := wrap_int (x + y).
Definition int_sub (x y : Z) : Z := wrap_int (x - y).

(** [x % y]: the remainder of the division truncated towards zero; a zero
    divisor panics. *)
Definition int_rem (x y : Z) : exec Z :=
  if y =? 0 then Panic integer_divide_by_zero else Ok (wrap_int (Z.rem x y)).

(** *** float64 and package math *)

Module math.
Definition MaxFloat64 : float := 0x1.fffffffffffffp+1023%float.

(** [func IsNaN(f float64) (is bool) { return f != f }] *)
Definition IsNaN (f : float) : bool := negb (f =? f)%float.

(** [func IsInf(f float64, sign int) bool] *)
Definition IsInf (f : float) (sign : Z) : bool :=
  (0 <=? sign) && (MaxFloat64 <? f)%float
  || (sign <=? 0) && (f <? - MaxFloat64)%float.

(** [func NaN() float64] *)
Definition NaN : float := nan.
End math.

(** [float64(n)] for a non-negative [int] [n]. *)
Definition float64_of_int (n : Z) : float := PrimFloat.of_uint63 (Uint63.of_Z n).

(** *** Slices and their backing arrays *)

Definition loc := positive.
Abbreviation heap := (gmap loc (list float)).

(** A slice of float64: the backing array, the length and the capacity. The
    program only ever slices from index 0, so a view starts at the first
    element of its array. [array = None] is the nil slice. *)
Record slice := Slice { array : option loc; len : Z; cap : Z }.

Definition nil_slice : slice := {| array := None; len := 0; cap := 0 |}.

(** The elements seen through a slice. *)
Definition elems (s : slice) (h : heap) : list float :=
  match array s with
  | Some l => take (Z.to_nat (len s)) (default [] (h !! l))
  | None => []
  end.

(** [make([]float64, n)]. A negative length panics. The allocator's limits
    are not part of the model: a length it would refuse is allocated here. *)
Definition make (n : Z) : M heap slice :=
  λ h, if n <? 0 then (Panic makeslice_len_out_of_range, h)
       else let l := fresh (dom h) in
            (Ok {| array := Some l; len := n; cap := n |},
             <[l := replicate (Z.to_nat n) 0%float]> h).

(** [s[0:hi]] *)
Definition slice_to (s : slice) (hi : Z) : exec slice :=
  if (0 <=? hi) && (hi <=? cap s)
  then Ok {| array := array s; len := hi; cap := cap s |}
  else Panic slice_bounds_out_of_range.

(** [s[i] = v] *)
Definition store (s : slice) (i : Z) (v : float) : M heap unit :=
  λ h, if (0 <=? i) && (i <? len s)
       then match array s with
            | Some l => (Ok tt, alter (λ a, <[Z.to_nat i := v]> a) l h)
            | None => (Panic index_out_of_range, h)
            end
       else (Panic index_out_of_range, h).

(** [copy(dst, src)] *)
Definition copy (dst src : slice) : M heap Z :=
  λ h, let n := Z.min (len dst) (len src) in
       match array dst with
       | Some l =>
           (Ok n, alter (λ a, take (Z.to_nat n) (elems src h) ++ drop (Z.to_nat n) a) l h)
       | None => (Ok n, h)
       end.

(** [error]: [None] is [nil]. *)
Definition error := option string.

(** ** The statistics collaborator (github.com/montanaflynn/stats)

    The ring store calls four functions of the statistics package on its
    live slice. They are a parameter of the model: pure functions of the
    elements they are given. *)
Module stats.
Class lib := {
  Mean : list float → float * error;
  Median : list float → float * error;
  Min : list float → float * error;
  Max : list float → float * error
}.

(** What the specification says of the collaborator: empty input is an
    error. *)
Definition fails_on_empty (L : lib) : Prop :=
  snd (Mean []) ≠ None ∧ snd (Median []) ≠ None ∧
  snd (Min []) ≠ None ∧ snd (Max []) ≠ None.
End stats.

(** ** Receivers

    A method of [*T] runs over the receiver struct and the heap of arrays. *)
Definition this {T} : M (T * heap) T := λ σ, (Ok σ.1, σ).
Definition assign {T} (f : T → T) : M (T * heap) unit := λ σ, (Ok tt, (f σ.1, σ.2)).
Definition on_heap {T A} (m : M heap A) : M (T * heap) A :=
  λ σ, let '(r, h) := m σ.2 in (r, (σ.1, h)).
Definition read {T} (s : slice) : M (T * heap) (list float) :=
  λ σ, (Ok (elems s σ.2), σ).

(** ** The interface [MovingStats]

    A reducer handed to [UnsafeDoStat] or [UnsafeDo] receives a slice and may
    read and write the heap through it; it has no access to the receiver. *)
Module MovingStats.
Class methods (T : Type) := {
  Add : list float → M (T * heap) unit;
  Window : M (T * heap) Z;
  SlotsFilled : M (T * heap) bool;
  Values : M (T * heap) slice;
  Count : M (T * heap) Z;
  Avg : M (T * heap) float;
  Median : M (T * heap) float;
  Min : M (T * heap) float;
  Max : M (T * heap) float;
  UnsafeDoStat : (slice → M heap (float * error)) → M (T * heap) (float * error);
  UnsafeDo : (slice → M heap error) → M (T * heap) error
}.
End MovingStats.

(** ** ma.go *)

Record Options := {
  IgnoreNanValues : bool;
  IgnoreInfValues : bool;
  Window : Z
}.

Record movingStats := {
  window : Z;
  values : slice;
  valPos : Z;
  slotsFilled : bool;
  ignoreNanValues : bool;
  ignoreInfValues : bool
}.

Definition set_valPos (p : Z) (ma : movingStats) : movingStats :=
  {| window := window ma; values := values ma; valPos := p;
     slotsFilled := slotsFilled ma; ignoreNanValues := ignoreNanValues ma;
     ignoreInfValues := ignoreInfValues ma |}.

Definition set_slotsFilled (b : bool) (ma : movingStats) : movingStats :=
  {| window := window ma; values := values ma; valPos := valPos ma;
     slotsFilled := b; ignoreNanValues := ignoreNanValues ma;
     ignoreInfValues := ignoreInfValues ma |}.

Definition New (opts : Options) : M heap movingStats :=
  vals <- make (Window opts) ;;
  ret {| values := vals;
         valPos := 0;
         slotsFilled := false;
         window := Window opts;
         ignoreInfValues := IgnoreInfValues opts;
         ignoreNanValues := IgnoreNanValues opts |}.

Module movingStats.
Section methods.
Context {L : stats.lib}.

Abbreviation world := (movingStats * heap)%type.

Definition filledValues (ma : movingStats) : exec slice :=
  let c := int_sub (window ma) 1 in
  if negb (slotsFilled ma) then
    let c := int_sub (valPos ma) 1 in
    if c <? 0 then Ok nil_slice
    else slice_to (values ma) (int_add c 1)
  else slice_to (values ma) (int_add c 1).

(** One turn of the loop of [Add]. *)
Definition Add_body (val : float) : M world unit :=
  ma <- this ;;
  if ignoreNanValues ma && math.IsNaN val then ret tt
  else if ignoreInfValues ma && math.IsInf val 0 then ret tt
  else
    on_heap (store (values ma) (valPos ma) val) ;;;
    pos <- lift (int_rem (int_add (valPos ma) 1) (window ma)) ;;
    assign (set_valPos pos) ;;;
    ma <- this ;;
    if negb (slotsFilled ma) && (valPos ma =? 0)
    then assign (set_slotsFilled true)
    else ret tt.

Fixpoint Add (vals : list float) : M world unit :=
  match vals with
  | [] => ret tt
  | val :: rest => Add_body val ;;; Add rest
  end.

Definition Window : M world Z :=
  ma <- this ;; ret (window ma).

Definition SlotsFilled : M world bool :=
  ma <- this ;; ret (slotsFilled ma).

Definition Values : M world slice :=
  ma <- this ;;
  internal <- lift (filledValues ma) ;;
  retv <- on_heap (make (len internal)) ;;
  on_heap (copy retv internal) ;;;
  ret retv.

Definition Count : M world Z :=
  ma <- this ;;
  s <- lift (filledValues ma) ;;
  ret (len s).

(** The shape shared by [Avg], [Median], [Min] and [Max]. *)
Definition or_zero (r : float * error) : float :=
  match snd r with
  | Some _ => 0%float
  | None => fst r
  end.

Definition Avg : M world float :=
  ma <- this ;;
  s <- lift (filledValues ma) ;;
  data <- read s ;;
  ret (or_zero (stats.Mean data)).

Definition Median : M world float :=
  ma <- this ;;
  s <- lift (filledValues ma) ;;
  data <- read s ;;
  ret (or_zero (stats.Median data)).

Definition Min : M world float :=
  ma <- this ;;
  s <- lift (filledValues ma) ;;
  data <- read s ;;
  ret (or_zero (stats.Min data)).

Definition Max : M world float :=
  ma <- this ;;
  s <- lift (filledValues ma) ;;
  data <- read s ;;
  ret (or_zero (stats.Max data)).

Definition UnsafeDoStat (f : slice → M heap (float * error)) : M world (float * error) :=
  ma <- this ;;
  s <- lift (filledValues ma) ;;
  on_heap (f s).

Definition UnsafeDo (f : slice → M heap error) : M world error :=
  ma <- this ;;
  s <- lift (filledValues ma) ;;
  on_heap (f s).

#[global] Instance impl : MovingStats.methods movingStats := {|
  MovingStats.Add := Add;
  MovingStats.Window := Window;
  MovingStats.SlotsFilled := SlotsFilled;
  MovingStats.Values := Values;
  MovingStats.Count := Count;
  MovingStats.Avg := Avg;
  MovingStats.Median := Median;
  MovingStats.Min := Min;
  MovingStats.Max := Max;
  MovingStats.UnsafeDoStat := UnsafeDoStat;
  MovingStats.UnsafeDo := UnsafeDo
|}.
End methods.
End movingStats.

(** ** The wrapper [concurrentMovingStats]

    [sync.RWMutex] as one goroutine sees it: a writer flag and a count of
    readers. Taking a lock that cannot be granted blocks for ever, since no
    other goroutine is there to release it. *)
Module sync.
Record RWMutex := { writer : bool; readers : Z }.

(** The zero value: an unlocked mutex. *)
Definition zero : RWMutex := {| writer := false; readers := 0 |}.

Definition Lock : M RWMutex unit :=
  λ m, if writer m || (0 <? readers m) then (Blocked, m)
       else (Ok tt, {| writer := true; readers := readers m |}).

Definition Unlock : M RWMutex unit :=
  λ m, if writer m then (Ok tt, {| writer := false; readers := readers m |})
       else (Panic unlock_of_unlocked_mutex, m).

Definition RLock : M RWMutex unit :=
  λ m, if writer m then (Blocked, m)
       else (Ok tt, {| writer := writer m; readers := readers m + 1 |}).

Definition RUnlock : M RWMutex unit :=
  λ m, if readers m <=? 0 then (Panic unlock_of_unlocked_mutex, m)
       else (Ok tt, {| writer := writer m; readers := readers m - 1 |}).
End sync.

(** The field [ma] holds a value of the interface [MovingStats]: any type
    [T] with the methods of the interface. *)
Record concurrentMovingStats (T : Type) := {
  ma : T;
  mux : sync.RWMutex
}.
Arguments ma {T} c.
Arguments mux {T} c.

Definition NewConcurrent (opts : Options) : M heap (concurrentMovingStats movingStats) :=
  inner <- New opts ;;
  ret {| ma := inner; mux := sync.zero |}.

Module concurrentMovingStats.
Section methods.
Context {T : Type} {I : MovingStats.methods T}.

Abbreviation world := (concurrentMovingStats T * heap)%type.

(** [c.mux.m()] *)
Definition on_mux {A} (m : M sync.RWMutex A) : M world A :=
  λ σ, let '(r, mu) := m (mux σ.1) in (r, ({| ma := ma σ.1; mux := mu |}, σ.2)).

(** [c.ma.m()] *)
Definition on_ma {A} (m : M (T * heap) A) : M world A :=
  λ σ, let '(r, τ) := m (ma σ.1, σ.2) in (r, ({| ma := τ.1; mux := mux σ.1 |}, τ.2)).

Definition Add (vals : list float) : M world unit :=
  on_mux sync.Lock ;;;
  defer (on_mux sync.Unlock)
    (on_ma (MovingStats.Add vals)).

Definition Window : M world Z :=
  on_mux sync.RLock ;;;
  defer (on_mux sync.RUnlock)
    (on_ma MovingStats.Window).

Definition SlotsFilled : M world bool :=
  on_mux sync.RLock ;;;
  defer (on_mux sync.RUnlock)
    (on_ma MovingStats.SlotsFilled).

Definition Values : M world slice :=
  on_mux sync.RLock ;;;
  defer (on_mux sync.RUnlock)
    (on_ma MovingStats.Values).

Definition Count : M world Z :=
  on_mux sync.RLock ;;;
  defer (on_mux sync.RUnlock)
    (on_ma MovingStats.Count).

Definition Avg : M world float :=
  on_mux sync.RLock ;;;
  defer (on_mux sync.RUnlock)
    (on_ma MovingStats.Avg).

Definition Median : M world float :=
  on_mux sync.RLock ;;;
  defer (on_mux sync.RUnlock)
    (on_ma MovingStats.Median).

Definition Min : M world float :=
  on_mux sync.RLock ;;;
  defer (on_mux sync.RUnlock)
    (on_ma MovingStats.Min).

Definition Max : M world float :=
  on_mux sync.RLock ;;;
  defer (on_mux sync.RUnlock)
    (on_ma MovingStats.Max).

Definition UnsafeDoStat (f : slice → M heap (float * error)) : M world (float * error) :=
  on_mux sync.RLock ;;;
  defer (on_mux sync.RUnlock)
    (on_ma (MovingStats.UnsafeDoStat f)).

Definition UnsafeDo (f : slice → M heap error) : M world error :=
  on_mux sync.RLock ;;;
  defer (on_mux sync.RUnlock)
    (on_ma (MovingStats.UnsafeDo f)).

#[global] Instance impl : MovingStats.methods (concurrentMovingStats T) := {|
  MovingStats.Add := Add;
  MovingStats.Window := Window;
  MovingStats.SlotsFilled := SlotsFilled;
  MovingStats.Values := Values;
  MovingStats.Count := Count;
  MovingStats.Avg := Avg;
  MovingStats.Median := Median;
  MovingStats.Min := Min;
  MovingStats.Max := Max;
  MovingStats.UnsafeDoStat := UnsafeDoStat;
  MovingStats.UnsafeDo := UnsafeDo
|}.
End methods.
End concurrentMovingStats.

(** ** A statistics package to run the store with

    The statistics package is an external collaborator: its code is not part
    of the repository. To run the store on concrete samples its four
    functions are written out here from what the specification says of them
    (pure functions over an ordered sequence of floats, each returning a
    result or an error, the error signalling empty input), computed the way
    github.com/montanaflynn/stats computes them. *)
Module montanaflynn.
(** Modelled from the spec: the error the collaborator returns on empty
    input (the package's code is not in the repository). *)
Definition EmptyInputErr : error := Some "Input must not be empty."%string.

(** Modelled from the spec: the sum the mean is computed from, added up from
    left to right (the package's code is not in the repository). *)
Definition Sum (input : list float) : float * error :=
  match input with
  | [] => (math.NaN, EmptyInputErr)
  | _ => (foldl (λ sum n, sum + n)%float 0%float input, None)
  end.

(** Modelled from the spec: the collaborator's mean, the sum divided by the
    number of samples, an error on empty input (the package's code is not in
    the repository). *)
Definition Mean (input : list float) : float * error :=
  match input with
  | [] => (math.NaN, EmptyInputErr)
  | _ => ((fst (Sum input) / float64_of_int (Z.of_nat (length input)))%float, None)
  end.

(** Modelled from the spec: the order the median sorts by; as in
    [sort.Float64s], NaN comes before every other value. *)
Definition less (x y : float) : bool :=
  (x <? y)%float || (math.IsNaN x && negb (math.IsNaN y)).

(** Modelled from the spec: insertion into a sorted sequence, for the
    sorted copy the median is read from. *)
Fixpoint insert_sorted (x : float) (l : list float) : list float :=
  match l with
  | [] => [x]
  | y :: l' => if less y x then y :: insert_sorted x l' else x :: y :: l'
  end.

(** Modelled from the spec: the sorted copy of the input. *)
Definition sortedCopy (input : list float) : list float :=
  foldr insert_sorted [] input.

(** Modelled from the spec: the collaborator's median, the middle element
    of the sorted copy or the mean of the two middle ones, an error on empty
    input (the package's code is not in the repository). *)
Definition Median (input : list float) : float * error :=
  let c := sortedCopy input in
  let l := length c in
  if (l =? 0)%nat then (math.NaN, EmptyInputErr)
  else if (l mod 2 =? 0)%nat
       then (fst (Mean (take 2 (drop (l / 2 - 1)%nat c))), None)
       else (default math.NaN (c !! (l / 2)%nat), None).

(** Modelled from the spec: the collaborator's minimum, an error on empty
    input (the package's code is not in the repository). *)
Definition Min (input : list float) : float * error :=
  match input with
  | [] => (math.NaN, EmptyInputErr)
  | x :: rest => (foldl (λ m y, if (y <? m)%float then y else m) x rest, None)
  end.

(** Modelled from the spec: the collaborator's maximum, an error on empty
    input (the package's code is not in the repository). *)
Definition Max (input : list float) : float * error :=
  match input with
  | [] => (math.NaN, EmptyInputErr)
  | x :: rest => (foldl (λ m y, if (m <? y)%float then y else m) x rest, None)
  end.

(** Modelled from the spec: the four functions as one collaborator. *)
Definition package : stats.lib := {|
  stats.Mean := Mean;
  stats.Median := Median;
  stats.Min := Min;
  stats.Max := Max
|}.
End montanaflynn.

(** ** Vocabulary of the specification *)

Abbreviation world := (movingStats * heap)%type.

Definition is_int (z : Z) : Prop := MinInt ≤ z ≤ MaxInt.

(** The store's backing array. *)
Definition buffer (σ : world) : list float :=
  match array (values σ.1) with
  | Some l => default [] (σ.2 !! l)
  | None => []
  end.

(** The live slice, as the specification defines it from the fields of the
    store: the whole buffer, [buffer[0..capacity)], once the slots are
    filled, and [buffer[0..writeCursor)] before. It does not mention
    [filledValues]. *)
Definition live_slice (σ : world) : list float :=
  if slotsFilled σ.1
  then take (Z.to_nat (window σ.1)) (buffer σ)
  else take (Z.to_nat (valPos σ.1)) (buffer σ).

(** The live slice as the outcome of a read that returns. *)
Definition live (σ : world) : exec (list float) := Ok (live_slice σ).

(** What the code exposes: the elements of the slice [filledValues]
    returns. *)
Definition exposed (σ : world) : exec (list float) :=
  match movingStats.filledValues σ.1 with
  | Ok s => Ok (elems s σ.2)
  | Panic e => Panic e
  | Blocked => Blocked
  end.

(** The values [Add] does not skip. *)
Definition accepts (ma : movingStats) (val : float) : bool :=
  negb (ignoreNanValues ma && math.IsNaN val)
  && negb (ignoreInfValues ma && math.IsInf val 0).

(** The last [n] elements of a list. *)
Definition lastn {A} (n : nat) (l : list A) : list A := drop (length l - n) l.

(** What the rest of the program may do between two calls: anything that
    leaves the receiver and its backing array alone (allocating, writing
    into slices returned by [Values], running reducers that keep the
    contract of [UnsafeDo]). *)
Definition frame (σ σ' : world) : Prop :=
  σ'.1 = σ.1 ∧ ∀ l, array (values σ.1) = Some l → σ'.2 !! l = σ.2 !! l.

(** One step in the life of a store, with the values accepted so far
    (oldest first). *)
Inductive step : list float * world → list float * world → Prop :=
  | step_Add acc σ vals σ' :
      movingStats.Add vals σ = (Ok tt, σ') →
      step (acc, σ) (acc ++ List.filter (accepts σ.1) vals, σ')
  | step_frame acc σ σ' :
      frame σ σ' →
      step (acc, σ) (acc, σ').

(** [history opts acc σ]: [σ] is a state of a store built by [New opts] that
    has accepted the values [acc] since. *)
Definition history (opts : Options) (acc : list float) (σ : world) : Prop :=
  ∃ h ma h', New opts h = (Ok ma, h') ∧ rtc step ([], (ma, h')) (acc, σ).

(** The ring invariant: the buffer is [B ++ A] with the cursor between the
    two parts; [B] holds the newest values and [A] the oldest ones (or the
    slots never written). *)
Definition ring (opts : Options) (acc : list float) (σ : world) : Prop :=
  let w := Window opts in
  ∃ l A B f,
    σ.1 = {| window := w;
             values := {| array := Some l; len := w; cap := w |};
             valPos := Z.of_nat (length B);
             slotsFilled := f;
             ignoreNanValues := IgnoreNanValues opts;
             ignoreInfValues := IgnoreInfValues opts |} ∧
    σ.2 !! l = Some (B ++ A) ∧
    length (B ++ A) = Z.to_nat w ∧
    0 ≤ w ≤ MaxInt ∧
    (0 < w → Z.of_nat (length B) < w) ∧
    (if f then 0 < w ∧ lastn (Z.to_nat w) acc = A ++ B else acc = B).

(** Calls of the interface and their replies, to run a store on a sequence
    of operations. *)
Inductive call :=
  | call_Add (vals : list float)
  | call_Window
  | call_SlotsFilled
  | call_Values
  | call_Count
  | call_Avg
  | call_Median
  | call_Min
  | call_Max
  | call_UnsafeDoStat (f : slice → M heap (float * error))
  | call_UnsafeDo (f : slice → M heap error).

Inductive reply :=
  | reply_unit
  | reply_int (z : Z)
  | reply_bool (b : bool)
  | reply_slice (s : slice)
  | reply_float (x : float)
  | reply_stat (r : float * error)
  | reply_error (e : error).

Definition fmap_M {S A B} (g : A → B) (m : M S A) : M S B :=
  a <- m ;; ret (g a).

Definition invoke {T} {I : MovingStats.methods T} (c : call) : M (T * heap) reply :=
  match c with
  | call_Add vals => fmap_M (λ _, reply_unit) (MovingStats.Add vals)
  | call_Window => fmap_M reply_int MovingStats.Window
  | call_SlotsFilled => fmap_M reply_bool MovingStats.SlotsFilled
  | call_Values => fmap_M reply_slice MovingStats.Values
  | call_Count => fmap_M reply_int MovingStats.Count
  | call_Avg => fmap_M reply_float MovingStats.Avg
  | call_Median => fmap_M reply_float MovingStats.Median
  | call_Min => fmap_M reply_float MovingStats.Min
  | call_Max => fmap_M reply_float MovingStats.Max
  | call_UnsafeDoStat f => fmap_M reply_stat (MovingStats.UnsafeDoStat f)
  | call_UnsafeDo f => fmap_M reply_error (MovingStats.UnsafeDo f)
  end.

(** A single goroutine making the calls one after the other; it stops at
    the first call that panics or blocks. The outcome of every call made is
    recorded. *)
Fixpoint run {T} {I : MovingStats.methods T} (cs : list call) (σ : T * heap)
  : list (exec reply) * (T * heap) :=
  match cs with
  | [] => ([], σ)
  | c :: rest =>
      match invoke c σ with
      | (Ok r, σ') => let '(rs, σ'') := run rest σ' in (Ok r :: rs, σ'')
      | (o, σ') => ([o], σ')
      end
  end.

(** The read operations of the interface. *)
Definition is_read (c : call) : bool :=
  match c with
  | call_Window | call_SlotsFilled | call_Values | call_Count
  | call_Avg | call_Median | call_Min | call_Max => true
  | _ => false
  end.

(** What a caller sees of a reply: for a slice, its elements. *)
Inductive seen :=
  | seen_value (r : reply)
  | seen_elems (data : list float).

Definition observe (h : heap) (r : reply) : seen :=
  match r with
  | reply_slice s => seen_elems (elems s h)
  | _ => seen_value r
  end.

(** The calls [Add(v)] of a scenario, one value at a time. *)
Definition Add_each (vs : list float) : M world unit :=
  foldr (λ v k, movingStats.Add [v] ;;; k) (ret tt) vs.

(** A caller mutating a slice it holds: the assignments [s[i] = x], one
    after the other. *)
Definition writes (s : slice) (ws : list (Z * float)) : M heap unit :=
  foldr (λ w k, store s w.1 w.2 ;;; k) (ret tt) ws.

(** A reducer that calls the collaborator's mean, as [stats.Mean] is handed
    to [UnsafeDoStat]. *)
Definition Mean_reducer {L : stats.lib} (s : slice) : M heap (float * error) :=
  λ h, (Ok (stats.Mean (elems s h)), h).

(** A wrapper whose lock nobody holds. *)
Definition unlocked {T} (x : T) : concurrentMovingStats T :=
  {| ma := x; mux := sync.zero |}.

(** The outcome of a call on the wrapped store, as the wrapper hands it on:
    the lock is released, except when the call never returns and the lock
    stays [held]. *)
Definition through_lock {T A} (held : sync.RWMutex) (o : exec A * (T * heap))
  : exec A * (concurrentMovingStats T * heap) :=
  match o with
  | (Blocked, τ) => (Blocked, ({| ma := τ.1; mux := held |}, τ.2))
  | (r, τ) => (r, (unlocked τ.1, τ.2))
  end.

(** * Properties *)

(** ** Integers *)

Lemma wrap_int_id z : is_int z → wrap_int z = z.
Proof.
  unfold is_int, wrap_int, MinInt, MaxInt. intros Hz.
  rewrite Z.mod_small; lia.
Qed.

Lemma int_rem_small x y :
  0 ≤ x < y → y ≤ MaxInt → int_rem x y = Ok x.
Proof.
  intros Hx Hy. unfold int_rem.
  destruct (Z.eqb_spec y 0) as [->|_]; [lia|].
  rewrite Z.rem_small by lia.
  rewrite wrap_int_id; [done|]. unfold is_int, MinInt, MaxInt in *. lia.
Qed.

Lemma int_rem_self y : 0 < y → int_rem y y = Ok 0.
Proof.
  intros Hy. unfold int_rem.
  destruct (Z.eqb_spec y 0) as [->|Hne]; [lia|].
  rewrite Z.rem_same by done. done.
Qed.

(** ** Floats *)

Lemma IsNaN_not_IsInf v : math.IsNaN v = true → math.IsInf v 0 = false.
Proof.
  unfold math.IsNaN, math.IsInf. simpl.
  rewrite FloatAxioms.eqb_spec, !FloatAxioms.ltb_spec.
  destruct (Prim2SF v) as [s|s| |s m e] eqn:Hv; simpl.
  - destruct s; done.
  - destruct s; done.
  - intros _. unfold SFltb, SFcompare.
    by destruct (Prim2SF math.MaxFloat64), (Prim2SF (- math.MaxFloat64)).
  - unfold SFeqb, SFcompare.
    rewrite Z.compare_refl, Pos.compare_cont_refl. by destruct s.
Qed.

(** ** Lists *)

Lemma lastn_length_le {A} n (l : list A) : (length l ≤ n)%nat → lastn n l = l.
Proof. intros H. unfold lastn. by replace (length l - n)%nat with 0%nat by lia. Qed.

Lemma lastn_length {A} n (l : list A) : (n ≤ length l)%nat → length (lastn n l) = n.
Proof. intros H. unfold lastn. rewrite length_drop. lia. Qed.

Lemma lastn_snoc {A} n (l : list A) a R v :
  lastn n l = a :: R → length (a :: R) = n → lastn n (l ++ [v]) = R ++ [v].
Proof.
  unfold lastn. intros Hd Hn.
  assert (Hl : (n ≤ length l)%nat).
  { apply (f_equal length) in Hd. rewrite length_drop in Hd. simpl in *. lia. }
  simpl in Hn. rewrite length_app. simpl.
  replace (length l + 1 - n)%nat with (S (length l - n)) by lia.
  rewrite drop_app_le by lia. f_equal.
  replace (S (length l - n)) with ((length l - n) + 1)%nat by lia.
  rewrite <- drop_drop, Hd. done.
Qed.

(** ** The ring invariant *)

Ltac unfold_M :=
  unfold fmap_M, bind, ret, this, assign, on_heap, lift, read.

Lemma accepts_true ma v :
  accepts ma v = true ↔
  ignoreNanValues ma && math.IsNaN v = false ∧
  ignoreInfValues ma && math.IsInf v 0 = false.
Proof.
  unfold accepts. rewrite andb_true_iff, !negb_true_iff. done.
Qed.

Lemma accepts_false ma v :
  accepts ma v = false ↔
  ignoreNanValues ma && math.IsNaN v = true ∨
  (ignoreNanValues ma && math.IsNaN v = false ∧
   ignoreInfValues ma && math.IsInf v 0 = true).
Proof.
  unfold accepts.
  destruct (ignoreNanValues ma && math.IsNaN v),
    (ignoreInfValues ma && math.IsInf v 0); simpl; intuition congruence.
Qed.

Lemma New_ok opts h :
  0 ≤ Window opts →
  New opts h =
  (Ok {| window := Window opts;
         values := {| array := Some (fresh (dom h)); len := Window opts; cap := Window opts |};
         valPos := 0; slotsFilled := false;
         ignoreNanValues := IgnoreNanValues opts;
         ignoreInfValues := IgnoreInfValues opts |},
   <[fresh (dom h) := replicate (Z.to_nat (Window opts)) 0%float]> h).
Proof.
  intros Hw. unfold New, bind, make, ret.
  destruct (Z.ltb_spec (Window opts) 0); [lia|done].
Qed.

Lemma New_negative opts h :
  Window opts < 0 → New opts h = (Panic makeslice_len_out_of_range, h).
Proof.
  intros Hw. unfold New, bind, make.
  destruct (Z.ltb_spec (Window opts) 0); [done|lia].
Qed.

Lemma New_ring opts h ma h' :
  Window opts ≤ MaxInt → New opts h = (Ok ma, h') → ring opts [] (ma, h').
Proof.
  intros Hmax HN.
  destruct (Z.lt_ge_cases (Window opts) 0) as [Hneg|Hw].
  { rewrite New_negative in HN by done. discriminate. }
  rewrite New_ok in HN by done. injection HN as <- <-.
  exists (fresh (dom h)), (replicate (Z.to_nat (Window opts)) 0%float), [], false.
  simpl. rewrite lookup_insert_eq, length_replicate. repeat split; (done || lia).
Qed.

Lemma frame_ring opts acc σ σ' : ring opts acc σ → frame σ σ' → ring opts acc σ'.
Proof.
  intros (l & A & B & f & Hma & Hh & Hrest) [Heq Hfr].
  exists l, A, B, f. rewrite Heq. split; [done|]. split; [|done].
  rewrite Hfr; [done|]. by rewrite Hma.
Qed.

Lemma Add_body_skip v σ :
  accepts σ.1 v = false → movingStats.Add_body v σ = (Ok tt, σ).
Proof.
  intros Hacc. apply accepts_false in Hacc.
  unfold movingStats.Add_body. unfold_M.
  destruct Hacc as [->|[-> ->]]; done.
Qed.

Lemma Add_body_zero opts acc v σ :
  ring opts acc σ → Window opts = 0 → accepts σ.1 v = true →
  movingStats.Add_body v σ = (Panic index_out_of_range, σ).
Proof.
  intros (l & A & B & f & Hma & Hh & Hlen & Hw & Hpos & Hf) Hz Hacc.
  apply accepts_true in Hacc as [Hn Hi].
  destruct σ as [ma h]. simpl in *.
  unfold movingStats.Add_body. unfold_M. simpl. rewrite Hn, Hi.
  unfold store. rewrite Hma. simpl. rewrite Hz.
  destruct (Z.ltb_spec (Z.of_nat (length B)) 0); [lia|].
  rewrite andb_false_r. done.
Qed.

Lemma Add_body_store opts acc v σ :
  ring opts acc σ → 0 < Window opts → accepts σ.1 v = true →
  ∃ σ', movingStats.Add_body v σ = (Ok tt, σ') ∧
        ring opts (acc ++ [v]) σ' ∧
        buffer σ' = <[Z.to_nat (valPos σ.1) := v]> (buffer σ) ∧
        valPos σ'.1 = (valPos σ.1 + 1) mod Window opts.
Proof.
  intros (l & A & B & f & Hma & Hh & Hlen & Hw & Hpos & Hf) Hw1 Hacc.
  apply accepts_true in Hacc as [Hn Hi].
  destruct σ as [ma h]. simpl in *. specialize (Hpos Hw1).
  unfold movingStats.Add_body. unfold_M. simpl. rewrite Hn, Hi.
  unfold store, buffer. rewrite Hma. simpl.
  destruct (Z.leb_spec 0 (Z.of_nat (length B))); [|lia].
  destruct (Z.ltb_spec (Z.of_nat (length B)) (Window opts)); [|lia].
  simpl. rewrite Nat2Z.id.
  unfold int_add. rewrite wrap_int_id by (unfold is_int, MinInt, MaxInt in *; lia).
  destruct A as [|a A'].
  { rewrite app_nil_r in Hlen. lia. }
  assert (Hins : <[length B := v]> (B ++ a :: A') = (B ++ [v]) ++ A').
  { rewrite insert_app_r_alt by lia. rewrite Nat.sub_diag. simpl.
    by rewrite <- app_assoc. }
  rewrite length_app in Hlen. simpl in Hlen.
  set (h' := alter (λ a0 : list float, <[length B:=v]> a0) l h).
  assert (Hh' : h' !! l = Some ((B ++ [v]) ++ A')).
  { unfold h'. rewrite lookup_alter_eq, Hh. simpl. by rewrite Hins. }
  destruct (Z.eq_dec (Z.of_nat (length B) + 1) (Window opts)) as [Hfull|Hpart].
  - (* the cursor wraps around *)
    rewrite Hfull, int_rem_self by done. simpl.
    rewrite Z.mod_same by lia.
    assert (A' = []) as -> by (destruct A'; [done|simpl in *; lia]).
    exists ({| window := Window opts;
               values := {| array := Some l; len := Window opts; cap := Window opts |};
               valPos := 0; slotsFilled := true;
               ignoreNanValues := IgnoreNanValues opts;
               ignoreInfValues := IgnoreInfValues opts |}, h').
    split; [by destruct f|]. simpl. rewrite Hh', Hh. simpl. rewrite Hins.
    split; [|done].
    exists l, (B ++ [v]), [], true. simpl.
    rewrite Hh', !app_nil_r, length_app. simpl.
    repeat split; try (done || lia).
    destruct f.
    + destruct Hf as [_ Hf]. simpl in Hf.
      apply (lastn_snoc _ _ _ _ v) in Hf; [done|]. simpl. lia.
    + subst acc. apply lastn_length_le. rewrite length_app. simpl. lia.
  - (* the cursor moves on *)
    rewrite int_rem_small by lia. simpl.
    rewrite Z.mod_small by lia.
    destruct (Z.eqb_spec (Z.of_nat (length B) + 1) 0); [lia|].
    rewrite andb_false_r. eexists. split; [reflexivity|]. simpl.
    rewrite Hh', Hh. simpl. rewrite Hins.
    split; [|done].
    exists l, A', (B ++ [v]), f. simpl.
    rewrite Hh', !length_app. simpl.
    replace (Z.of_nat (length B + 1)) with (Z.of_nat (length B) + 1) by lia.
    repeat split; try (done || lia).
    destruct f.
    + destruct Hf as [_ Hf]. split; [done|].
      apply (lastn_snoc _ _ _ _ v) in Hf.
      * by rewrite Hf, <- app_assoc.
      * simpl. rewrite length_app. lia.
    + by subst acc.
Qed.

Lemma ring_accepts opts acc σ v :
  ring opts acc σ →
  accepts σ.1 v =
  negb (IgnoreNanValues opts && math.IsNaN v) && negb (IgnoreInfValues opts && math.IsInf v 0).
Proof. intros (l & A & B & f & -> & _). done. Qed.

Lemma Add_cons v rest σ :
  movingStats.Add (v :: rest) σ =
  match movingStats.Add_body v σ with
  | (Ok _, σ') => movingStats.Add rest σ'
  | (Panic e, σ') => (Panic e, σ')
  | (Blocked, σ') => (Blocked, σ')
  end.
Proof. done. Qed.

Lemma Add_app vals1 vals2 σ :
  movingStats.Add (vals1 ++ vals2) σ =
  (movingStats.Add vals1 ;;; movingStats.Add vals2) σ.
Proof.
  revert σ. induction vals1 as [|v vals1 IH]; intros σ; [done|].
  simpl app. rewrite Add_cons. unfold bind at 1. rewrite Add_cons.
  destruct (movingStats.Add_body v σ) as [[[]|e|] σ1]; [|done..].
  rewrite IH. done.
Qed.

(** [Add] keeps the invariant, whatever the window. *)
Lemma Add_ring opts vals : ∀ acc σ σ',
  ring opts acc σ → movingStats.Add vals σ = (Ok tt, σ') →
  ring opts (acc ++ List.filter (accepts σ.1) vals) σ'.
Proof.
  induction vals as [|v vals IH]; intros acc σ σ' Hr HA.
  { injection HA as <-. simpl. by rewrite app_nil_r. }
  rewrite Add_cons in HA. simpl.
  destruct (accepts σ.1 v) eqn:Hacc.
  - destruct (Z.eq_dec (Window opts) 0) as [Hz|Hnz].
    { rewrite (Add_body_zero opts acc) in HA by done. discriminate. }
    destruct (Add_body_store opts acc v σ) as (σ1 & HB & Hr1 & _); [done|..|done|].
    { destruct Hr as (? & ? & ? & ? & _ & _ & _ & ? & _). lia. }
    rewrite HB in HA. apply (IH _ _ _ Hr1) in HA.
    replace (acc ++ v :: List.filter (accepts σ.1) vals)
      with ((acc ++ [v]) ++ List.filter (accepts σ1.1) vals); [done|].
    rewrite <- app_assoc. simpl. do 2 f_equal.
    apply List.filter_ext. intros x.
    by rewrite (ring_accepts _ _ _ _ Hr1), (ring_accepts _ _ _ _ Hr).
  - rewrite Add_body_skip in HA by done. by apply IH.
Qed.

(** With a positive window [Add] returns. *)
Lemma Add_total opts vals : ∀ acc σ,
  ring opts acc σ → 0 < Window opts →
  ∃ σ', movingStats.Add vals σ = (Ok tt, σ').
Proof.
  induction vals as [|v vals IH]; intros acc σ Hr Hw.
  { by exists σ. }
  rewrite Add_cons. destruct (accepts σ.1 v) eqn:Hacc.
  - destruct (Add_body_store opts acc v σ) as (σ1 & -> & Hr1 & _); [done..|].
    by apply (IH (acc ++ [v])).
  - rewrite Add_body_skip by done. by apply (IH acc).
Qed.

Lemma step_ring opts x y : step x y → ring opts x.1 x.2 → ring opts y.1 y.2.
Proof.
  intros [acc σ vals σ' HA|acc σ σ' Hfr] Hr; simpl in *.
  - by apply Add_ring.
  - by apply (frame_ring _ _ σ).
Qed.

Lemma steps_ring opts x y : rtc step x y → ring opts x.1 x.2 → ring opts y.1 y.2.
Proof. induction 1; eauto using step_ring. Qed.

Lemma history_ring opts acc σ :
  Window opts ≤ MaxInt → history opts acc σ → ring opts acc σ.
Proof.
  intros Hmax (h & ma0 & h' & HN & Hsteps).
  apply (steps_ring opts) in Hsteps; [done|].
  by apply (New_ring _ h).
Qed.

Lemma history_New opts h ma h' : New opts h = (Ok ma, h') → history opts [] (ma, h').
Proof. intros HN. exists h, ma, h'. split; [done|]. apply rtc_refl. Qed.

Lemma history_step opts acc σ acc' σ' :
  history opts acc σ → step (acc, σ) (acc', σ') → history opts acc' σ'.
Proof.
  intros (h & ma0 & h' & HN & Hsteps) Hst. exists h, ma0, h'.
  split; [done|]. by eapply rtc_r.
Qed.

Lemma history_steps opts acc σ acc' σ' :
  history opts acc σ → rtc step (acc, σ) (acc', σ') → history opts acc' σ'.
Proof.
  intros (h & ma0 & h' & HN & Hsteps) Hst. exists h, ma0, h'.
  split; [done|]. by etrans.
Qed.

(** ** The live slice of a store that satisfies the invariant *)

Lemma ring_filledValues opts acc σ :
  ring opts acc σ →
  ∃ s, movingStats.filledValues σ.1 = Ok s ∧
       len s = Z.of_nat (length (elems s σ.2)) ∧
       (∀ l, array s = Some l → array (values σ.1) = Some l ∧ is_Some (σ.2 !! l)) ∧
       (if slotsFilled σ.1
        then elems s σ.2 = buffer σ ∧ buffer σ ≡ₚ lastn (Z.to_nat (Window opts)) acc ∧
             len s = Window opts ∧ (Z.to_nat (Window opts) ≤ length acc)%nat ∧
             0 < Window opts
        else elems s σ.2 = acc ∧ valPos σ.1 = Z.of_nat (length acc) ∧
             (0 < Window opts → Z.of_nat (length acc) < Window opts)).
Proof.
  intros (l & A & B & f & Hma & Hh & Hlen & Hw & Hpos & Hf).
  destruct σ as [ma h]. simpl in *. subst ma.
  unfold movingStats.filledValues, buffer, elems, int_sub, int_add, slice_to. simpl.
  assert (HB : Z.of_nat (length B) ≤ Window opts).
  { rewrite length_app in Hlen. lia. }
  rewrite (wrap_int_id (Window opts - 1)), (wrap_int_id (Z.of_nat (length B) - 1))
    by (unfold is_int, MinInt, MaxInt in *; lia).
  rewrite (wrap_int_id (Window opts - 1 + 1)), (wrap_int_id (Z.of_nat (length B) - 1 + 1))
    by (unfold is_int, MinInt, MaxInt in *; lia).
  destruct f; simpl.
  - destruct Hf as [Hw1 Hf].
    replace (Window opts - 1 + 1) with (Window opts) by lia.
    destruct (Z.leb_spec 0 (Window opts)); [|lia]. rewrite Z.leb_refl. simpl.
    eexists. split; [reflexivity|]. simpl. rewrite Hh. simpl.
    rewrite take_ge by lia.
    split; [lia|]. split; [intros ? [= <-]; by rewrite Hh|].
    split; [done|]. split; [by rewrite Hf, Permutation_app_comm|].
    split; [done|]. split; [|done].
    destruct (Nat.le_gt_cases (Z.to_nat (Window opts)) (length acc)); [done|].
    rewrite lastn_length_le in Hf by lia. subst acc.
    rewrite !length_app in *. lia.
  - subst acc. destruct (Z.ltb_spec (Z.of_nat (length B) - 1) 0).
    + exists nil_slice. split; [done|]. simpl.
      assert (B = []) as -> by (destruct B; [done|simpl in *; lia]).
      repeat split; done.
    + replace (Z.of_nat (length B) - 1 + 1) with (Z.of_nat (length B)) by lia.
      destruct (Z.leb_spec 0 (Z.of_nat (length B))); [|lia].
      destruct (Z.leb_spec (Z.of_nat (length B)) (Window opts)); [|lia]. simpl.
      eexists. split; [reflexivity|]. simpl. rewrite Hh. simpl.
      rewrite Nat2Z.id, take_app_length.
      split; [done|]. split; [intros ? [= <-]; by rewrite Hh|].
      repeat split; done.
Qed.

(** On a store that satisfies the invariant, the slice [filledValues]
    returns is the live slice of the specification. *)
Lemma ring_exposed opts acc σ : ring opts acc σ → live σ = exposed σ.
Proof.
  intros Hr. destruct (ring_filledValues _ _ _ Hr) as (s & Hs & _ & _ & Hf).
  unfold exposed. rewrite Hs. unfold live, live_slice. f_equal.
  destruct Hr as (l & A & B & f & Hma & Hh & Hlen & _ & _ & HAB).
  unfold buffer in *. rewrite Hma in *. simpl in *. rewrite Hh in *. simpl in *.
  destruct f.
  - destruct Hf as (-> & _). apply take_ge. lia.
  - destruct Hf as (-> & _). subst acc. by rewrite Nat2Z.id, take_app_length.
Qed.

Lemma ring_live opts acc σ :
  ring opts acc σ →
  ∃ data, live σ = Ok data ∧
          (if slotsFilled σ.1
           then data = buffer σ ∧ data ≡ₚ lastn (Z.to_nat (Window opts)) acc
           else data = acc).
Proof.
  intros Hr. destruct (ring_filledValues _ _ _ Hr) as (s & Hs & _ & _ & Hf).
  exists (elems s σ.2). rewrite (ring_exposed _ _ _ Hr). unfold exposed.
  rewrite Hs. split; [done|].
  destruct (slotsFilled σ.1).
  - destruct Hf as (-> & ? & _). done.
  - by destruct Hf as (-> & _).
Qed.

Lemma ring_filled_iff opts acc σ :
  ring opts acc σ → 0 < Window opts →
  slotsFilled σ.1 = true ↔ Window opts ≤ Z.of_nat (length acc).
Proof.
  intros Hr Hw. destruct (ring_filledValues _ _ _ Hr) as (s & _ & _ & _ & Hf).
  destruct (slotsFilled σ.1).
  - destruct Hf as (_ & _ & _ & ? & _). split; [lia|done].
  - destruct Hf as (_ & _ & Hlt). specialize (Hlt Hw). split; [done|lia].
Qed.

(** ** What the methods return, given the slice [filledValues] returns *)

Section methods_spec.
Context {L : stats.lib}.
Implicit Types (σ : world) (s : slice).

Lemma Window_spec σ : movingStats.Window σ = (Ok (window σ.1), σ).
Proof. done. Qed.

Lemma SlotsFilled_spec σ : movingStats.SlotsFilled σ = (Ok (slotsFilled σ.1), σ).
Proof. done. Qed.

Lemma Count_spec σ s :
  movingStats.filledValues σ.1 = Ok s → movingStats.Count σ = (Ok (len s), σ).
Proof. intros Hs. unfold movingStats.Count. unfold_M. simpl. by rewrite Hs. Qed.

Lemma Avg_spec σ s :
  movingStats.filledValues σ.1 = Ok s →
  movingStats.Avg σ = (Ok (movingStats.or_zero (stats.Mean (elems s σ.2))), σ).
Proof. intros Hs. unfold movingStats.Avg. unfold_M. simpl. by rewrite Hs. Qed.

Lemma Median_spec σ s :
  movingStats.filledValues σ.1 = Ok s →
  movingStats.Median σ = (Ok (movingStats.or_zero (stats.Median (elems s σ.2))), σ).
Proof. intros Hs. unfold movingStats.Median. unfold_M. simpl. by rewrite Hs. Qed.

Lemma Min_spec σ s :
  movingStats.filledValues σ.1 = Ok s →
  movingStats.Min σ = (Ok (movingStats.or_zero (stats.Min (elems s σ.2))), σ).
Proof. intros Hs. unfold movingStats.Min. unfold_M. simpl. by rewrite Hs. Qed.

Lemma Max_spec σ s :
  movingStats.filledValues σ.1 = Ok s →
  movingStats.Max σ = (Ok (movingStats.or_zero (stats.Max (elems s σ.2))), σ).
Proof. intros Hs. unfold movingStats.Max. unfold_M. simpl. by rewrite Hs. Qed.

Lemma UnsafeDoStat_spec σ s f :
  movingStats.filledValues σ.1 = Ok s →
  movingStats.UnsafeDoStat f σ = ((f s σ.2).1, (σ.1, (f s σ.2).2)).
Proof.
  intros Hs. unfold movingStats.UnsafeDoStat. unfold_M. simpl. rewrite Hs.
  by destruct (f s σ.2).
Qed.

Lemma UnsafeDo_spec σ s g :
  movingStats.filledValues σ.1 = Ok s →
  movingStats.UnsafeDo g σ = ((g s σ.2).1, (σ.1, (g s σ.2).2)).
Proof.
  intros Hs. unfold movingStats.UnsafeDo. unfold_M. simpl. rewrite Hs.
  by destruct (g s σ.2).
Qed.

(** [Values] allocates a new array and copies the live slice into it. *)
Lemma Values_spec σ s :
  movingStats.filledValues σ.1 = Ok s →
  len s = Z.of_nat (length (elems s σ.2)) →
  (∀ l, array s = Some l → is_Some (σ.2 !! l)) →
  movingStats.Values σ =
  (Ok {| array := Some (fresh (dom σ.2)); len := len s; cap := len s |},
   (σ.1, <[fresh (dom σ.2) := elems s σ.2]> σ.2)).
Proof.
  intros Hs Hlen Halloc. destruct σ as [ma h]. simpl in *.
  unfold movingStats.Values. unfold_M. simpl. rewrite Hs. unfold make.
  destruct (Z.ltb_spec (len s) 0); [lia|]. simpl.
  unfold copy. simpl. rewrite Z.min_id. do 2 f_equal.
  rewrite alter_insert_eq. f_equal.
  assert (Hsame : elems s (<[fresh (dom h) := replicate (Z.to_nat (len s)) 0%float]> h)
                  = elems s h).
  { unfold elems. destruct (array s) as [l|] eqn:Hl; [|done].
    rewrite lookup_insert_ne; [done|]. intros <-.
    destruct (Halloc _ eq_refl) as [b Hb].
    pose proof (is_fresh (dom h)) as Hfresh.
    apply not_elem_of_dom in Hfresh. congruence. }
  rewrite Hsame, Hlen, Nat2Z.id, firstn_all.
  rewrite drop_ge by (by rewrite length_replicate).
  by rewrite app_nil_r.
Qed.
End methods_spec.

Lemma fresh_unallocated (h : heap) : h !! fresh (dom h) = None.
Proof. apply not_elem_of_dom, is_fresh. Qed.

Lemma elems_insert_same l data n (h : heap) :
  n = Z.of_nat (length data) →
  elems {| array := Some l; len := n; cap := n |} (<[l := data]> h) = data.
Proof.
  intros ->. unfold elems. simpl. rewrite lookup_insert_eq. simpl.
  by rewrite Nat2Z.id, firstn_all.
Qed.

(** [Values] on a store that satisfies the invariant. *)
Lemma ring_Values opts acc σ :
  ring opts acc σ →
  ∃ s σ' data,
    movingStats.Values σ = (Ok s, σ') ∧ live σ = Ok data ∧
    elems s σ'.2 = data ∧ len s = Z.of_nat (length data) ∧
    array s = Some (fresh (dom σ.2)) ∧
    σ' = (σ.1, <[fresh (dom σ.2) := data]> σ.2) ∧
    frame σ σ'.
Proof.
  intros Hr. destruct (ring_filledValues _ _ _ Hr) as (s & Hs & Hlen & Halloc & _).
  eexists _, _, (elems s σ.2). split.
  { apply Values_spec; [done..|]. intros l Hl. by apply Halloc. }
  rewrite (ring_exposed _ _ _ Hr). unfold exposed. rewrite Hs. simpl.
  split; [done|]. split; [by apply elems_insert_same|].
  repeat split; try done.
  intros l Hl. simpl. rewrite lookup_insert_ne; [done|]. intros Heq.
  destruct Hr as (l0 & A & B & f & Hma & Hh & _). rewrite Hma in Hl.
  simpl in Hl. injection Hl as <-. rewrite <- Heq, fresh_unallocated in Hh. done.
Qed.

Lemma history_of_run opts h ma h1 vals σ acc :
  New opts h = (Ok ma, h1) → movingStats.Add vals (ma, h1) = (Ok tt, σ) →
  List.filter (accepts ma) vals = acc →
  history opts acc σ.
Proof.
  intros HN HA <-. eapply (history_step _ [] (ma, h1)); [by eapply history_New|].
  by apply (step_Add []).
Qed.

(** Builds the history of a store made in the empty heap by one call of
    [Add]. *)
Ltac history_by_run vals :=
  eapply (history_of_run _ ∅ _ _ vals);
  [ vm_compute; reflexivity | vm_compute; reflexivity | vm_compute; reflexivity ].

Lemma history_ring' opts acc σ :
  is_int (Window opts) → history opts acc σ → ring opts acc σ.
Proof. intros [_ ?]. by apply history_ring. Qed.

(** ** Filling the window *)

(** C1: for a store of capacity w ≥ 1 that has accepted more than w values,
    Count() is w, SlotsFilled() is true and the slice Values() returns holds,
    as a multiset, the w most recent accepted values; with window 4 and the
    adds 10, 2, 4, 6, 8 the live slice is 8, 2, 4, 6 and Avg() is 5.0. *)
Theorem window_overrun :
  (∀ opts acc σ,
     is_int (Window opts) → 1 ≤ Window opts → history opts acc σ →
     Window opts < Z.of_nat (length acc) →
     movingStats.Count σ = (Ok (Window opts), σ) ∧
     movingStats.SlotsFilled σ = (Ok true, σ) ∧
     ∃ s σ', movingStats.Values σ = (Ok s, σ') ∧
             live σ = Ok (elems s σ'.2) ∧
             elems s σ'.2 ≡ₚ lastn (Z.to_nat (Window opts)) acc) ∧
  (let opts := {| IgnoreNanValues := false; IgnoreInfValues := false; Window := 4 |} in
   ∃ ma h σ,
     New opts ∅ = (Ok ma, h) ∧
     Add_each [10; 2; 4; 6; 8]%float (ma, h) = (Ok tt, σ) ∧
     live σ = Ok [8; 2; 4; 6]%float ∧
     movingStats.Avg (L := montanaflynn.package) σ = (Ok 5%float, σ)).
Proof.
  split.
  - intros opts acc σ Hint Hw Hhist Hn.
    pose proof (history_ring' _ _ _ Hint Hhist) as Hr.
    assert (Hfilled : slotsFilled σ.1 = true).
    { apply (ring_filled_iff opts acc); [done|lia..]. }
    destruct (ring_filledValues _ _ _ Hr) as (s0 & Hs0 & _ & _ & Hf).
    rewrite Hfilled in Hf. destruct Hf as (Hel & Hperm & Hlen & _).
    split; [by rewrite (Count_spec _ s0), Hlen|].
    split; [by rewrite SlotsFilled_spec, Hfilled|].
    destruct (ring_Values _ _ _ Hr) as (s & σ' & data & HV & Hlive & Hdata & _).
    exists s, σ'. split; [done|]. rewrite Hdata. split; [done|].
    rewrite (ring_exposed _ _ _ Hr) in Hlive. unfold exposed in Hlive.
    rewrite Hs0 in Hlive. injection Hlive as <-.
    by rewrite Hel.
  - simpl. eexists _, _, _.
    split; [vm_compute; reflexivity|].
    split; [vm_compute; reflexivity|].
    split; vm_compute; reflexivity.
Qed.

Lemma window_overrun_witness :
  let opts := {| IgnoreNanValues := false; IgnoreInfValues := false; Window := 2 |} in
  let σ : world :=
    ({| window := 2; values := {| array := Some 1%positive; len := 2; cap := 2 |};
        valPos := 1; slotsFilled := true;
        ignoreNanValues := false; ignoreInfValues := false |},
     {[ 1%positive := [3; 2]%float ]}) in
  movingStats.Count σ = (Ok 2, σ) ∧
  movingStats.SlotsFilled σ = (Ok true, σ) ∧
  ∃ s σ', movingStats.Values σ = (Ok s, σ') ∧
          live σ = Ok (elems s σ'.2) ∧
          elems s σ'.2 ≡ₚ lastn 2 [1; 2; 3]%float.
Proof.
  apply (proj1 window_overrun
           {| IgnoreNanValues := false; IgnoreInfValues := false; Window := 2 |}
           [1; 2; 3]%float).
  - unfold is_int, MinInt, MaxInt. simpl. lia.
  - simpl. lia.
  - history_by_run [1; 2; 3]%float.
  - simpl. lia.
Defined.

(** C2, as the code has it: for a store of capacity w ≥ 1 that has accepted
    n ≤ w values, Count() is n; SlotsFilled() is false while n < w and true
    once n = w; with window 5 and the adds 10, 20, Avg() is 15.0, Count() is
    2 and SlotsFilled() is false. *)
Theorem window_partial :
  (∀ opts acc σ,
     is_int (Window opts) → 1 ≤ Window opts → history opts acc σ →
     Z.of_nat (length acc) ≤ Window opts →
     movingStats.Count σ = (Ok (Z.of_nat (length acc)), σ) ∧
     (Z.of_nat (length acc) < Window opts →
      movingStats.SlotsFilled σ = (Ok false, σ) ∧ live σ = Ok acc) ∧
     (Z.of_nat (length acc) = Window opts →
      movingStats.SlotsFilled σ = (Ok true, σ))) ∧
  (let opts := {| IgnoreNanValues := false; IgnoreInfValues := false; Window := 5 |} in
   ∃ ma h σ,
     New opts ∅ = (Ok ma, h) ∧
     Add_each [10; 20]%float (ma, h) = (Ok tt, σ) ∧
     movingStats.Avg (L := montanaflynn.package) σ = (Ok 15%float, σ) ∧
     movingStats.Count σ = (Ok 2, σ) ∧
     movingStats.SlotsFilled σ = (Ok false, σ)).
Proof.
  split.
  - intros opts acc σ Hint Hw Hhist Hn.
    pose proof (history_ring' _ _ _ Hint Hhist) as Hr.
    pose proof (ring_filled_iff _ _ _ Hr ltac:(lia)) as Hiff.
    destruct (ring_filledValues _ _ _ Hr) as (s & Hs & Hlen & _ & Hf).
    rewrite (Count_spec _ s), SlotsFilled_spec by done.
    rewrite (ring_exposed _ _ _ Hr). unfold exposed. rewrite Hs.
    destruct (slotsFilled σ.1).
    + destruct Hf as (_ & _ & Hl & _). destruct Hiff as [Hiff _].
      specialize (Hiff eq_refl).
      split; [do 2 f_equal; lia|]. split; [lia|done].
    + destruct Hf as (Hel & _ & _). rewrite Hel in Hlen.
      split; [by rewrite Hlen|]. split; [by rewrite Hel|].
      intros Heq. destruct Hiff as [_ Hiff]. by rewrite Hiff by lia.
  - simpl. eexists _, _, _.
    split; [vm_compute; reflexivity|].
    split; [vm_compute; reflexivity|].
    repeat split; vm_compute; reflexivity.
Qed.

Lemma window_partial_witness :
  let σ : world :=
    ({| window := 3; values := {| array := Some 1%positive; len := 3; cap := 3 |};
        valPos := 2; slotsFilled := false;
        ignoreNanValues := false; ignoreInfValues := false |},
     {[ 1%positive := [7; 9; 0]%float ]}) in
  movingStats.Count σ = (Ok 2, σ) ∧
  (2 < 3 → movingStats.SlotsFilled σ = (Ok false, σ) ∧ live σ = Ok [7; 9]%float) ∧
  (2 = 3 → movingStats.SlotsFilled σ = (Ok true, σ)).
Proof.
  apply (proj1 window_partial
           {| IgnoreNanValues := false; IgnoreInfValues := false; Window := 3 |}
           [7; 9]%float).
  - unfold is_int, MinInt, MaxInt. simpl. lia.
  - simpl. lia.
  - history_by_run [7; 9]%float.
  - simpl. lia.
Defined.

(** C2 as stated fails when exactly w values have been accepted: the cursor
    has wrapped to 0 and the store reports its slots filled. The repository's
    test adds 2, 4, 2, 4, 2 to a window of 5 and expects SlotsFilled(). *)
Lemma window_exactly_full :
  let opts := {| IgnoreNanValues := false; IgnoreInfValues := false; Window := 5 |} in
  let acc := [2; 4; 2; 4; 2]%float in
  let σ : world :=
    ({| window := 5; values := {| array := Some 1%positive; len := 5; cap := 5 |};
        valPos := 0; slotsFilled := true;
        ignoreNanValues := false; ignoreInfValues := false |},
     {[ 1%positive := [2; 4; 2; 4; 2]%float ]}) in
  is_int (Window opts) ∧ 1 ≤ Window opts ∧ history opts acc σ ∧
  Z.of_nat (length acc) ≤ Window opts ∧
  movingStats.SlotsFilled σ = (Ok true, σ) ∧
  movingStats.SlotsFilled σ ≠ (Ok false, σ).
Proof.
  simpl. split; [unfold is_int, MinInt, MaxInt; simpl; lia|].
  split; [lia|]. split.
  { history_by_run [2; 4; 2; 4; 2]%float. }
  split; [lia|]. split; [done|]. intros [=].
Qed.

(** ** The empty store *)

Lemma or_zero_error (r : float * error) : r.2 ≠ None → movingStats.or_zero r = 0%float.
Proof. unfold movingStats.or_zero. by destruct r.2. Qed.

Section ring_empty.
Context {L : stats.lib}.

Lemma ring_empty opts acc σ :
  stats.fails_on_empty L → ring opts acc σ → live σ = Ok [] →
  movingStats.Avg σ = (Ok 0%float, σ) ∧
  movingStats.Median σ = (Ok 0%float, σ) ∧
  movingStats.Min σ = (Ok 0%float, σ) ∧
  movingStats.Max σ = (Ok 0%float, σ) ∧
  movingStats.Count σ = (Ok 0, σ) ∧
  movingStats.SlotsFilled σ = (Ok false, σ).
Proof.
  intros (HMean & HMedian & HMin & HMax) Hr Hlive.
  destruct (ring_filledValues _ _ _ Hr) as (s & Hs & Hlen & _ & Hf).
  rewrite (ring_exposed _ _ _ Hr) in Hlive. unfold exposed in Hlive.
  rewrite Hs in Hlive. injection Hlive as Hel.
  rewrite Hel in Hlen. simpl in Hlen.
  rewrite (Avg_spec _ s), (Median_spec _ s), (Min_spec _ s), (Max_spec _ s),
    (Count_spec _ s), SlotsFilled_spec by done.
  rewrite Hel, Hlen, !or_zero_error by done.
  repeat split. destruct (slotsFilled σ.1); [|done].
  destruct Hf as (_ & _ & ? & _ & ?). lia.
Qed.
End ring_empty.

Lemma ring_nothing_accepted opts σ : ring opts [] σ → live σ = Ok [].
Proof.
  intros Hr. destruct (ring_filledValues _ _ _ Hr) as (s & Hs & _ & _ & Hf).
  rewrite (ring_exposed _ _ _ Hr). unfold exposed. rewrite Hs.
  destruct (slotsFilled σ.1).
  - destruct Hf as (_ & _ & _ & Hle & Hw). simpl in Hle. lia.
  - by destruct Hf as (-> & _).
Qed.

(** C3: on a store whose live slice is empty, Avg(), Median(), Min() and
    Max() return 0.0 without panicking, Count() returns 0 and SlotsFilled()
    returns false; the live slice of a store just built by New is empty. *)
Theorem empty_store :
  (∀ (L : stats.lib) opts acc σ,
     stats.fails_on_empty L → is_int (Window opts) → history opts acc σ →
     live σ = Ok [] →
     movingStats.Avg σ = (Ok 0%float, σ) ∧
     movingStats.Median σ = (Ok 0%float, σ) ∧
     movingStats.Min σ = (Ok 0%float, σ) ∧
     movingStats.Max σ = (Ok 0%float, σ) ∧
     movingStats.Count σ = (Ok 0, σ) ∧
     movingStats.SlotsFilled σ = (Ok false, σ)) ∧
  (∀ opts h ma h',
     is_int (Window opts) → New opts h = (Ok ma, h') → live (ma, h') = Ok []).
Proof.
  split.
  - intros L opts acc σ Hfail Hint Hhist Hlive.
    apply (ring_empty opts acc); [done| |done]. by apply history_ring'.
  - intros opts h ma h' Hint HN.
    apply (ring_nothing_accepted opts), history_ring'; [done|].
    by apply (history_New _ h).
Qed.

Lemma empty_store_witness :
  let σ : world :=
    ({| window := 5; values := {| array := Some 1%positive; len := 5; cap := 5 |};
        valPos := 0; slotsFilled := false;
        ignoreNanValues := false; ignoreInfValues := false |},
     {[ 1%positive := [0; 0; 0; 0; 0]%float ]}) in
  movingStats.Avg (L := montanaflynn.package) σ = (Ok 0%float, σ) ∧
  movingStats.Median (L := montanaflynn.package) σ = (Ok 0%float, σ) ∧
  movingStats.Min (L := montanaflynn.package) σ = (Ok 0%float, σ) ∧
  movingStats.Max (L := montanaflynn.package) σ = (Ok 0%float, σ) ∧
  movingStats.Count σ = (Ok 0, σ) ∧
  movingStats.SlotsFilled σ = (Ok false, σ).
Proof.
  apply (proj1 empty_store montanaflynn.package
           {| IgnoreNanValues := false; IgnoreInfValues := false; Window := 5 |} []).
  - repeat split; discriminate.
  - unfold is_int, MinInt, MaxInt. simpl. lia.
  - history_by_run (@nil float).
  - vm_compute. reflexivity.
Defined.

(** ** Filtering *)

Lemma steps_accepted opts x y :
  rtc step x y → ring opts x.1 x.2 →
  Forall (λ v, accepts x.2.1 v = true) x.1 →
  Forall (λ v, accepts y.2.1 v = true) y.1.
Proof.
  induction 1 as [|x y z Hxy _ IH]; [done|]. intros Hr HF.
  pose proof (step_ring opts _ _ Hxy Hr) as Hr'.
  apply IH; [done|]. destruct Hxy as [acc σ vals σ' HA|acc σ σ' [Heq _]]; simpl in *.
  - assert (Hsame : ∀ v, accepts σ'.1 v = accepts σ.1 v).
    { intros v. by rewrite (ring_accepts _ _ _ _ Hr), (ring_accepts _ _ _ _ Hr'). }
    apply Forall_app. split.
    + eapply Forall_impl; [done|]. intros v Hv. by rewrite Hsame.
    + apply Forall_forall. intros v Hv. rewrite Hsame.
      apply list_elem_of_In, List.filter_In in Hv. by destruct Hv.
  - by rewrite Heq.
Qed.

Lemma history_accepted opts acc σ :
  is_int (Window opts) → history opts acc σ →
  Forall (λ v, accepts σ.1 v = true) acc.
Proof.
  intros [_ Hmax] (h & ma0 & h' & HN & Hsteps).
  apply (steps_accepted opts) in Hsteps; [done| |done].
  by apply (New_ring _ h).
Qed.

(** Every element of the live slice went through the filter. *)
Lemma live_accepted opts acc σ data x :
  is_int (Window opts) → history opts acc σ →
  live σ = Ok data → x ∈ data → accepts σ.1 x = true.
Proof.
  intros Hint Hhist Hlive Hx.
  pose proof (history_accepted _ _ _ Hint Hhist) as HF.
  rewrite Forall_forall in HF. apply HF.
  destruct (ring_live _ _ _ (history_ring' _ _ _ Hint Hhist)) as (data' & Hlive' & Hd).
  rewrite Hlive in Hlive'. injection Hlive' as <-.
  destruct (slotsFilled σ.1).
  - destruct Hd as [_ Hperm]. rewrite Hperm in Hx.
    by apply (subseteq_drop _ _ _ Hx).
  - by subst.
Qed.

Lemma last_in_lastn {A} n (acc : list A) v : (0 < n)%nat → v ∈ lastn n (acc ++ [v]).
Proof.
  intros Hn. unfold lastn. rewrite length_app. simpl.
  rewrite drop_app_le by lia. apply elem_of_app. right. by left.
Qed.

Lemma Add_single v σ :
  movingStats.Add [v] σ = movingStats.Add_body v σ.
Proof.
  rewrite Add_cons. by destruct (movingStats.Add_body v σ) as [[[]|e|] σ1].
Qed.

(** C4: Add handles its arguments in order; a NaN is skipped when
    ignoreNanValues is set, an infinity is skipped when ignoreInfValues is
    set, and any other value is written at the cursor, which then advances
    modulo the capacity. With ignoreNanValues set, adding a NaN leaves
    Count() as it was and Values() holds no NaN; without it the NaN is
    retained. *)
Theorem Add_filter opts acc σ v :
  is_int (Window opts) → 1 ≤ Window opts → history opts acc σ →
  (∃ σ1,
     movingStats.Add_body v σ = (Ok tt, σ1) ∧
     (∀ rest, movingStats.Add (v :: rest) σ = movingStats.Add rest σ1) ∧
     (if ignoreNanValues σ.1 && math.IsNaN v then σ1 = σ
      else if ignoreInfValues σ.1 && math.IsInf v 0 then σ1 = σ
      else buffer σ1 = <[Z.to_nat (valPos σ.1) := v]> (buffer σ) ∧
           valPos σ1.1 = (valPos σ.1 + 1) mod Window opts)) ∧
  (IgnoreNanValues opts = true →
     (math.IsNaN v = true →
      ∃ σ', movingStats.Add [v] σ = (Ok tt, σ') ∧
            (movingStats.Count σ').1 = (movingStats.Count σ).1) ∧
     ∃ s σ', movingStats.Values σ = (Ok s, σ') ∧
             ∀ x, x ∈ elems s σ'.2 → math.IsNaN x = false) ∧
  (IgnoreNanValues opts = false → math.IsNaN v = true →
     ∃ σ1 s σ', movingStats.Add [v] σ = (Ok tt, σ1) ∧
                movingStats.Values σ1 = (Ok s, σ') ∧
                v ∈ elems s σ'.2).
Proof.
  intros Hint Hw Hhist.
  pose proof (history_ring' _ _ _ Hint Hhist) as Hr.
  assert (Hflags : ignoreNanValues σ.1 = IgnoreNanValues opts ∧
                   ignoreInfValues σ.1 = IgnoreInfValues opts).
  { destruct Hr as (l & A & B & f & -> & _). done. }
  destruct Hflags as [Hnan Hinf].
  split; [|split].
  - destruct (accepts σ.1 v) eqn:Hacc.
    + destruct (Add_body_store opts acc v σ) as (σ1 & HB & _ & Hbuf & Hpos);
        [done|lia|done|].
      exists σ1. split; [done|]. split; [intros rest; by rewrite Add_cons, HB|].
      apply accepts_true in Hacc as [-> ->]. done.
    + exists σ. rewrite Add_body_skip by done.
      split; [done|]. split; [intros rest; by rewrite Add_cons, Add_body_skip|].
      apply accepts_false in Hacc as [->|[-> ->]]; done.
  - intros Hopt. split.
    + intros HvNaN. exists σ. split; [|done].
      rewrite Add_single, Add_body_skip; [done|].
      apply accepts_false. left. by rewrite Hnan, Hopt, HvNaN.
    + destruct (ring_Values _ _ _ Hr) as (s & σ' & data & HV & Hlive & Hdata & _).
      exists s, σ'. split; [done|]. intros x Hx. rewrite Hdata in Hx.
      pose proof (live_accepted _ _ _ _ _ Hint Hhist Hlive Hx) as Hacc.
      apply accepts_true in Hacc as [Hacc _].
      rewrite Hnan, Hopt in Hacc. done.
  - intros Hopt HvNaN.
    assert (Hacc : accepts σ.1 v = true).
    { apply accepts_true. rewrite Hnan, Hopt, (IsNaN_not_IsInf _ HvNaN).
      by rewrite andb_false_r. }
    destruct (Add_body_store opts acc v σ) as (σ1 & HB & Hr1 & _); [done|lia|done|].
    destruct (ring_Values _ _ _ Hr1) as (s & σ' & data & HV & Hlive & Hdata & _).
    exists σ1, s, σ'. rewrite Add_single. split; [done|]. split; [done|].
    rewrite Hdata.
    destruct (ring_live _ _ _ Hr1) as (data' & Hlive' & Hd).
    rewrite Hlive in Hlive'. injection Hlive' as <-.
    destruct (slotsFilled σ1.1).
    + destruct Hd as [_ Hperm]. rewrite Hperm. apply last_in_lastn. lia.
    + rewrite Hd. apply elem_of_app. right. by left.
Qed.

Lemma Add_filter_witness :
  let opts := {| IgnoreNanValues := true; IgnoreInfValues := false; Window := 3 |} in
  let σ : world :=
    ({| window := 3; values := {| array := Some 1%positive; len := 3; cap := 3 |};
        valPos := 1; slotsFilled := false;
        ignoreNanValues := true; ignoreInfValues := false |},
     {[ 1%positive := [1; 0; 0]%float ]}) in
  (is_int (Window opts) ∧ 1 ≤ Window opts ∧ history opts [1%float] σ) ∧
  ∃ σ', movingStats.Add [nan] σ = (Ok tt, σ') ∧
        (movingStats.Count σ').1 = (movingStats.Count σ).1.
Proof.
  intros opts σ.
  assert (Hint : is_int (Window opts)) by (unfold is_int, MinInt, MaxInt; simpl; lia).
  assert (Hw : 1 ≤ Window opts) by (simpl; lia).
  assert (Hhist : history opts [1%float] σ) by history_by_run [1%float].
  split; [done|].
  destruct (Add_filter opts [1%float] σ nan Hint Hw Hhist) as (_ & Hskip & _).
  apply (Hskip eq_refl). reflexivity.
Defined.

(** ** Aliasing: [Values] copies, [UnsafeDo] does not *)

Lemma store_frame s i x h r h2 :
  store s i x h = (r, h2) → ∀ l, array s ≠ Some l → h2 !! l = h !! l.
Proof.
  unfold store. intros Hst l Hl.
  destruct ((0 <=? i) && (i <? len s)); [|by injection Hst as _ <-].
  destruct (array s) as [l0|]; [|by injection Hst as _ <-].
  injection Hst as _ <-. rewrite lookup_alter_ne; [done|]. congruence.
Qed.

Lemma writes_frame s ws : ∀ h r h2,
  writes s ws h = (r, h2) → ∀ l, array s ≠ Some l → h2 !! l = h !! l.
Proof.
  induction ws as [|[i x] ws IH]; intros h r h2 Hws l Hl.
  { by injection Hws as _ <-. }
  simpl in Hws. unfold bind in Hws.
  destruct (store s i x h) as [[[]|e|] h1] eqn:Hst; simpl in Hws.
  - rewrite (IH _ _ _ Hws) by done. by eapply store_frame.
  - injection Hws as _ <-. by eapply store_frame.
  - injection Hws as _ <-. by eapply store_frame.
Qed.

Lemma frame_refl σ : frame σ σ.
Proof. done. Qed.

Lemma frame_trans σ1 σ2 σ3 : frame σ1 σ2 → frame σ2 σ3 → frame σ1 σ3.
Proof.
  intros [H1 H1'] [H2 H2']. split; [congruence|].
  intros l Hl. rewrite H2', H1'; [done..|]. by rewrite H1.
Qed.

(** A frame step changes nothing the store can see. *)
Lemma frame_live opts acc σ σ' :
  ring opts acc σ → frame σ σ' → live σ' = live σ ∧ buffer σ' = buffer σ.
Proof.
  intros Hr Hframe.
  rewrite (ring_exposed _ _ _ Hr), (ring_exposed _ _ _ (frame_ring _ _ _ _ Hr Hframe)).
  destruct Hframe as [Heq Hfr].
  destruct (ring_filledValues _ _ _ Hr) as (s & Hs & _ & Halloc & _).
  unfold exposed, buffer. rewrite Heq, Hs. split.
  - f_equal. unfold elems. destruct (array s) as [l|] eqn:Hl; [|done].
    destruct (Halloc _ eq_refl) as [Hv _]. by rewrite (Hfr _ Hv).
  - destruct (array (values σ.1)) as [l|] eqn:Hl; [|done]. by rewrite (Hfr _ eq_refl).
Qed.

Section ring_stats.
Context {L : stats.lib}.

Lemma ring_stats opts acc σ data :
  ring opts acc σ → live σ = Ok data →
  movingStats.Avg σ = (Ok (movingStats.or_zero (stats.Mean data)), σ) ∧
  movingStats.Median σ = (Ok (movingStats.or_zero (stats.Median data)), σ) ∧
  movingStats.Min σ = (Ok (movingStats.or_zero (stats.Min data)), σ) ∧
  movingStats.Max σ = (Ok (movingStats.or_zero (stats.Max data)), σ) ∧
  movingStats.Count σ = (Ok (Z.of_nat (length data)), σ).
Proof.
  intros Hr Hlive.
  destruct (ring_filledValues _ _ _ Hr) as (s & Hs & Hlen & _).
  rewrite (ring_exposed _ _ _ Hr) in Hlive. unfold exposed in Hlive.
  rewrite Hs in Hlive. injection Hlive as <-.
  rewrite (Avg_spec _ s), (Median_spec _ s), (Min_spec _ s), (Max_spec _ s),
    (Count_spec _ s), Hlen by done.
  done.
Qed.
End ring_stats.

(** C5: Values() returns a new sequence equal to the live slice, which is
    buffer[0..capacity) once the slots are filled and buffer[0..writeCursor)
    before, and so the values accepted so far (the last w of them, as a
    multiset, once filled); whatever the caller then writes into it, the
    store keeps its state and Values(), Avg() and Median() give the same
    results as before. *)
Theorem Values_is_a_copy (L : stats.lib) opts acc σ :
  is_int (Window opts) → history opts acc σ →
  ∃ s σ1 data,
    movingStats.Values σ = (Ok s, σ1) ∧
    live σ = Ok data ∧ elems s σ1.2 = data ∧
    data = live_slice σ ∧
    (if slotsFilled σ.1
     then data ≡ₚ lastn (Z.to_nat (Window opts)) acc
     else data = acc) ∧
    (∃ l, array s = Some l ∧ σ.2 !! l = None ∧ array (values σ.1) ≠ Some l) ∧
    σ1.1 = σ.1 ∧ buffer σ1 = buffer σ ∧
    ∀ ws r h2,
      writes s ws σ1.2 = (r, h2) →
      let σ2 : world := (σ1.1, h2) in
      buffer σ2 = buffer σ ∧ live σ2 = Ok data ∧
      (∃ s' σ3, movingStats.Values σ2 = (Ok s', σ3) ∧ elems s' σ3.2 = data) ∧
      (movingStats.Avg σ2).1 = (movingStats.Avg σ).1 ∧
      (movingStats.Median σ2).1 = (movingStats.Median σ).1.
Proof.
  intros Hint Hhist.
  pose proof (history_ring' _ _ _ Hint Hhist) as Hr.
  destruct (ring_Values _ _ _ Hr) as (s & σ1 & data & HV & Hlive & Hdata & _ & Harr & Hσ1 & Hfr).
  exists s, σ1, data. split; [done|]. split; [done|]. split; [done|].
  split; [unfold live in Hlive; congruence|].
  split.
  { destruct (ring_live _ _ _ Hr) as (data' & Hlive' & Hd).
    rewrite Hlive in Hlive'. injection Hlive' as <-.
    destruct (slotsFilled σ.1); [by destruct Hd|done]. }
  assert (Hne : array (values σ.1) ≠ Some (fresh (dom σ.2))).
  { destruct Hr as (l & A & B & f & Hma & Hh & _). rewrite Hma. simpl.
    intros [= ->]. by rewrite fresh_unallocated in Hh. }
  split. { exists (fresh (dom σ.2)). by rewrite fresh_unallocated. }
  destruct (frame_live _ _ _ _ Hr Hfr) as [_ Hbuf1].
  split; [by rewrite Hσ1|]. split; [done|].
  intros ws r h2 Hws σ2.
  assert (Hfr2 : frame σ σ2).
  { apply (frame_trans _ σ1); [done|]. split; [done|].
    intros l Hl. simpl. apply (writes_frame _ _ _ _ _ Hws).
    rewrite Harr. destruct Hfr as [Heq _]. rewrite Heq in Hl. congruence. }
  destruct (frame_live _ _ _ _ Hr Hfr2) as [Hlive2 Hbuf2].
  pose proof (frame_ring _ _ _ _ Hr Hfr2) as Hr2.
  rewrite Hlive in Hlive2.
  split; [done|]. split; [done|]. split.
  { destruct (ring_Values _ _ _ Hr2) as (s' & σ3 & data' & HV' & Hlive' & Hdata' & _).
    exists s', σ3. split; [done|]. congruence. }
  destruct (ring_stats _ _ _ _ Hr Hlive) as (-> & -> & _).
  destruct (ring_stats _ _ _ _ Hr2 Hlive2) as (-> & -> & _).
  done.
Qed.

Lemma Values_is_a_copy_witness :
  let opts := {| IgnoreNanValues := false; IgnoreInfValues := false; Window := 3 |} in
  let σ : world :=
    ({| window := 3; values := {| array := Some 1%positive; len := 3; cap := 3 |};
        valPos := 2; slotsFilled := false;
        ignoreNanValues := false; ignoreInfValues := false |},
     {[ 1%positive := [7; 9; 0]%float ]}) in
  ∃ s σ1 data,
    movingStats.Values σ = (Ok s, σ1) ∧
    live σ = Ok data ∧ elems s σ1.2 = data ∧
    data = live_slice σ ∧
    (if slotsFilled σ.1
     then data ≡ₚ lastn (Z.to_nat (Window opts)) [7; 9]%float
     else data = [7; 9]%float) ∧
    (∃ l, array s = Some l ∧ σ.2 !! l = None ∧ array (values σ.1) ≠ Some l) ∧
    σ1.1 = σ.1 ∧ buffer σ1 = buffer σ ∧
    ∀ ws r h2,
      writes s ws σ1.2 = (r, h2) →
      let σ2 : world := (σ1.1, h2) in
      buffer σ2 = buffer σ ∧ live σ2 = Ok data ∧
      (∃ s' σ3, movingStats.Values σ2 = (Ok s', σ3) ∧ elems s' σ3.2 = data) ∧
      (movingStats.Avg (L := montanaflynn.package) σ2).1
      = (movingStats.Avg (L := montanaflynn.package) σ).1 ∧
      (movingStats.Median (L := montanaflynn.package) σ2).1
      = (movingStats.Median (L := montanaflynn.package) σ).1.
Proof.
  apply (Values_is_a_copy montanaflynn.package
           {| IgnoreNanValues := false; IgnoreInfValues := false; Window := 3 |}
           [7; 9]%float).
  - unfold is_int, MinInt, MaxInt. simpl. lia.
  - history_by_run [7; 9]%float.
Defined.

(** C6: UnsafeDoStat(f) returns the pair f returns on the live slice and
    UnsafeDo(g) the error g returns, with nothing replaced or swallowed. The
    slice they receive is on the store's own array and its elements are the
    live slice: buffer[0..capacity) once the slots are filled and
    buffer[0..writeCursor) before, so the values accepted so far (the last
    w of them, as a multiset, once filled). Handing the collaborator's mean
    to UnsafeDoStat returns its value and error as they are, where Avg()
    puts 0.0 in place of an error. *)
Theorem UnsafeDo_verbatim (L : stats.lib) opts acc σ
    (f : slice → M heap (float * error)) (g : slice → M heap error) :
  is_int (Window opts) → history opts acc σ →
  ∃ s data,
    movingStats.filledValues σ.1 = Ok s ∧
    live σ = Ok data ∧ elems s σ.2 = data ∧
    data = live_slice σ ∧
    (if slotsFilled σ.1
     then data ≡ₚ lastn (Z.to_nat (Window opts)) acc
     else data = acc) ∧
    (∀ l, array s = Some l → array (values σ.1) = Some l) ∧
    movingStats.UnsafeDoStat f σ = ((f s σ.2).1, (σ.1, (f s σ.2).2)) ∧
    movingStats.UnsafeDo g σ = ((g s σ.2).1, (σ.1, (g s σ.2).2)) ∧
    movingStats.UnsafeDoStat Mean_reducer σ = (Ok (stats.Mean data), σ) ∧
    movingStats.Avg σ = (Ok (movingStats.or_zero (stats.Mean data)), σ).
Proof.
  intros Hint Hhist.
  pose proof (history_ring' _ _ _ Hint Hhist) as Hr.
  destruct (ring_filledValues _ _ _ Hr) as (s & Hs & _ & Halloc & _).
  exists s, (elems s σ.2). split; [done|].
  assert (Hlive : live σ = Ok (elems s σ.2)).
  { rewrite (ring_exposed _ _ _ Hr). unfold exposed. by rewrite Hs. }
  split; [done|]. split; [done|].
  split; [unfold live in Hlive; congruence|].
  split.
  { destruct (ring_live _ _ _ Hr) as (data' & Hlive' & Hd).
    rewrite Hlive in Hlive'. injection Hlive' as <-.
    destruct (slotsFilled σ.1); [by destruct Hd|done]. }
  split; [intros l Hl; by apply Halloc|].
  rewrite !(UnsafeDoStat_spec _ s), (UnsafeDo_spec _ s) by done.
  split; [done|]. split; [done|]. split; [by destruct σ|].
  by destruct (ring_stats _ _ _ _ Hr Hlive) as (-> & _).
Qed.

Lemma UnsafeDo_verbatim_witness :
  let σ : world :=
    ({| window := 3; values := {| array := Some 1%positive; len := 3; cap := 3 |};
        valPos := 2; slotsFilled := false;
        ignoreNanValues := false; ignoreInfValues := false |},
     {[ 1%positive := [7; 9; 0]%float ]}) in
  ∃ s,
    movingStats.filledValues σ.1 = Ok s ∧ elems s σ.2 = [7; 9]%float ∧
    movingStats.UnsafeDoStat (Mean_reducer (L := montanaflynn.package)) σ
    = (Ok (8%float, None), σ) ∧
    movingStats.Avg (L := montanaflynn.package) σ = (Ok 8%float, σ).
Proof.
  intros σ.
  destruct (UnsafeDo_verbatim montanaflynn.package
              {| IgnoreNanValues := false; IgnoreInfValues := false; Window := 3 |}
              [7; 9]%float σ (Mean_reducer (L := montanaflynn.package))
              (λ _ h, (Ok None, h)))
    as (s & data & Hs & _ & Hel & _ & Hacc & _ & _ & _ & HU & HA).
  - unfold is_int, MinInt, MaxInt. simpl. lia.
  - history_by_run [7; 9]%float.
  - simpl in Hacc. subst data. exists s.
    split; [exact Hs|]. split; [exact Hacc|]. rewrite Hacc in HU, HA.
    split; [exact HU|exact HA].
Defined.

(** ** Reads *)

(** C8: the read operations leave the store as it is (Values() only
    allocates its copy), and what they return does not change as long as
    nothing but reads and other frame steps happen: calling them again gives
    the same results. *)
Theorem reads_are_pure (L : stats.lib) opts acc σ c :
  is_int (Window opts) → history opts acc σ → is_read c = true →
  ∃ r σ',
    invoke c σ = (Ok r, σ') ∧
    σ'.1 = σ.1 ∧ buffer σ' = buffer σ ∧ frame σ σ' ∧
    (c ≠ call_Values → σ' = σ) ∧
    ∀ σ2, frame σ σ2 →
      ∃ r2 σ2', invoke c σ2 = (Ok r2, σ2') ∧ frame σ σ2' ∧
                observe σ2'.2 r2 = observe σ'.2 r.
Proof.
  intros Hint Hhist Hread.
  pose proof (history_ring' _ _ _ Hint Hhist) as Hr.
  destruct (ring_live _ _ _ Hr) as (data & Hlive & _).
  destruct (ring_stats _ _ _ _ Hr Hlive) as (HAvg & HMed & HMin & HMax & HCount).
  assert (Hafter : ∀ σ2, frame σ σ2 →
            ring opts acc σ2 ∧ live σ2 = Ok data ∧ σ2.1 = σ.1).
  { intros σ2 Hfr. split; [by eapply frame_ring|].
    destruct (frame_live _ _ _ _ Hr Hfr) as [-> _]. by destruct Hfr. }
  destruct c; try discriminate; simpl; unfold fmap_M, bind, ret.
  - (* Window *)
    rewrite Window_spec. eexists _, σ. repeat split; try done.
    intros σ2 Hfr. destruct (Hafter _ Hfr) as (_ & _ & Heq).
    rewrite Window_spec, Heq. by eexists _, σ2.
  - (* SlotsFilled *)
    rewrite SlotsFilled_spec. eexists _, σ. repeat split; try done.
    intros σ2 Hfr. destruct (Hafter _ Hfr) as (_ & _ & Heq).
    rewrite SlotsFilled_spec, Heq. by eexists _, σ2.
  - (* Values *)
    destruct (ring_Values _ _ _ Hr) as (s & σ' & d & HV & Hl & Hd & _ & _ & Hσ' & Hfr').
    rewrite Hlive in Hl. injection Hl as <-.
    rewrite HV. exists (reply_slice s), σ'.
    destruct (frame_live _ _ _ _ Hr Hfr') as [_ Hbuf].
    split; [done|]. split; [by rewrite Hσ'|]. split; [done|]. split; [done|].
    split; [done|]. intros σ2 Hfr. destruct (Hafter _ Hfr) as (Hr2 & Hlive2 & _).
    destruct (ring_Values _ _ _ Hr2) as (s2 & σ2' & d2 & HV2 & Hl2 & Hd2 & _ & _ & _ & Hfr2).
    rewrite Hlive2 in Hl2. injection Hl2 as <-.
    rewrite HV2. exists (reply_slice s2), σ2'. split; [done|].
    split; [by eapply frame_trans|]. simpl. congruence.
  - (* Count *)
    rewrite HCount. eexists _, σ. repeat split; try done.
    intros σ2 Hfr. destruct (Hafter _ Hfr) as (Hr2 & Hlive2 & _).
    destruct (ring_stats _ _ _ _ Hr2 Hlive2) as (_ & _ & _ & _ & ->).
    by eexists _, σ2.
  - (* Avg *)
    rewrite HAvg. eexists _, σ. repeat split; try done.
    intros σ2 Hfr. destruct (Hafter _ Hfr) as (Hr2 & Hlive2 & _).
    destruct (ring_stats _ _ _ _ Hr2 Hlive2) as (-> & _).
    by eexists _, σ2.
  - (* Median *)
    rewrite HMed. eexists _, σ. repeat split; try done.
    intros σ2 Hfr. destruct (Hafter _ Hfr) as (Hr2 & Hlive2 & _).
    destruct (ring_stats _ _ _ _ Hr2 Hlive2) as (_ & -> & _).
    by eexists _, σ2.
  - (* Min *)
    rewrite HMin. eexists _, σ. repeat split; try done.
    intros σ2 Hfr. destruct (Hafter _ Hfr) as (Hr2 & Hlive2 & _).
    destruct (ring_stats _ _ _ _ Hr2 Hlive2) as (_ & _ & -> & _).
    by eexists _, σ2.
  - (* Max *)
    rewrite HMax. eexists _, σ. repeat split; try done.
    intros σ2 Hfr. destruct (Hafter _ Hfr) as (Hr2 & Hlive2 & _).
    destruct (ring_stats _ _ _ _ Hr2 Hlive2) as (_ & _ & _ & -> & _).
    by eexists _, σ2.
Qed.

Lemma reads_are_pure_witness :
  let opts := {| IgnoreNanValues := false; IgnoreInfValues := false; Window := 3 |} in
  let σ : world :=
    ({| window := 3; values := {| array := Some 1%positive; len := 3; cap := 3 |};
        valPos := 2; slotsFilled := false;
        ignoreNanValues := false; ignoreInfValues := false |},
     {[ 1%positive := [7; 9; 0]%float ]}) in
  (is_int (Window opts) ∧ history opts [7; 9]%float σ ∧ is_read call_Avg = true) ∧
  ∃ r σ', invoke (I := movingStats.impl (L := montanaflynn.package)) call_Avg σ = (Ok r, σ') ∧
          σ' = σ.
Proof.
  intros opts σ.
  assert (Hint : is_int (Window opts)) by (unfold is_int, MinInt, MaxInt; simpl; lia).
  assert (Hhist : history opts [7; 9]%float σ) by history_by_run [7; 9]%float.
  split; [done|].
  destruct (reads_are_pure montanaflynn.package opts [7; 9]%float σ call_Avg
              Hint Hhist eq_refl) as (r & σ' & Hcall & _ & _ & _ & Hsame & _).
  exists r, σ'. split; [exact Hcall|]. by apply Hsame.
Defined.

(** ** Invariants of the store *)

Lemma step_grows x y : step x y → (length x.1 ≤ length y.1)%nat.
Proof.
  intros [acc σ vals σ' _|acc σ σ' _]; simpl; [|done].
  rewrite length_app. lia.
Qed.

Lemma steps_grow x y : rtc step x y → (length x.1 ≤ length y.1)%nat.
Proof.
  induction 1 as [|x y z Hxy _ IH]; [done|].
  apply step_grows in Hxy. lia.
Qed.

(** C9: in every state of a store built with capacity w ≥ 1 the cursor is in
    [0, w), the buffer has length w and Window() is w, Count() is w if the
    slots are filled and the cursor otherwise, so at most w and the length
    of Values(); whatever happens next, the window and the buffer length
    stay what they are and a filled store stays filled. *)
Theorem store_invariants opts acc σ :
  is_int (Window opts) → 1 ≤ Window opts → history opts acc σ →
  0 ≤ valPos σ.1 < Window opts ∧
  length (buffer σ) = Z.to_nat (Window opts) ∧
  len (values σ.1) = Window opts ∧
  movingStats.Window σ = (Ok (Window opts), σ) ∧
  (∃ n s σ',
     movingStats.Count σ = (Ok n, σ) ∧
     n = (if slotsFilled σ.1 then Window opts else valPos σ.1) ∧
     n ≤ Window opts ∧
     movingStats.Values σ = (Ok s, σ') ∧
     n = len s ∧ n = Z.of_nat (length (elems s σ'.2))) ∧
  ∀ acc' σ', rtc step (acc, σ) (acc', σ') →
    window σ'.1 = Window opts ∧
    length (buffer σ') = Z.to_nat (Window opts) ∧
    (slotsFilled σ.1 = true → slotsFilled σ'.1 = true).
Proof.
  intros Hint Hw Hhist.
  pose proof (history_ring' _ _ _ Hint Hhist) as Hr.
  assert (Hshape : ∀ acc0 σ0, ring opts acc0 σ0 →
            0 ≤ valPos σ0.1 < Window opts ∧
            length (buffer σ0) = Z.to_nat (Window opts) ∧
            len (values σ0.1) = Window opts ∧
            window σ0.1 = Window opts).
  { intros acc0 σ0 (l & A & B & f & Hma & Hh & Hlen & _ & Hpos & _).
    unfold buffer. rewrite Hma. simpl. rewrite Hh. simpl.
    repeat split; try done; lia. }
  destruct (Hshape _ _ Hr) as (Hpos & Hbuf & Hlen & Hwin).
  split; [done|]. split; [done|]. split; [done|].
  split; [by rewrite Window_spec, Hwin|]. split.
  - destruct (ring_Values _ _ _ Hr) as (s & σ' & data & HV & Hlive & Hdata & Hls & _).
    destruct (ring_filledValues _ _ _ Hr) as (s0 & Hs0 & Hlen0 & _ & Hf).
    rewrite (ring_exposed _ _ _ Hr) in Hlive. unfold exposed in Hlive.
    rewrite Hs0 in Hlive. injection Hlive as <-.
    exists (len s0), s, σ'. split; [by apply Count_spec|].
    rewrite Hdata, Hls, <- Hlen0.
    destruct (slotsFilled σ.1).
    + destruct Hf as (_ & _ & -> & _). repeat split; (done || lia).
    + destruct Hf as (Hel & Hvp & Hlt). rewrite Hel in Hlen0.
      specialize (Hlt ltac:(lia)). rewrite Hvp.
      repeat split; (done || lia).
  - intros acc' σ' Hsteps.
    pose proof (steps_ring opts _ _ Hsteps Hr) as Hr'. simpl in Hr'.
    destruct (Hshape _ _ Hr') as (_ & Hbuf' & _ & Hwin').
    split; [done|]. split; [done|]. intros Hfilled.
    apply (ring_filled_iff _ _ _ Hr') ; [lia|].
    apply (ring_filled_iff _ _ _ Hr) in Hfilled; [|lia].
    apply steps_grow in Hsteps. simpl in Hsteps. lia.
Qed.

Lemma store_invariants_witness :
  let opts := {| IgnoreNanValues := false; IgnoreInfValues := false; Window := 2 |} in
  let σ : world :=
    ({| window := 2; values := {| array := Some 1%positive; len := 2; cap := 2 |};
        valPos := 1; slotsFilled := true;
        ignoreNanValues := false; ignoreInfValues := false |},
     {[ 1%positive := [3; 2]%float ]}) in
  (is_int (Window opts) ∧ 1 ≤ Window opts ∧ history opts [1; 2; 3]%float σ) ∧
  0 ≤ valPos σ.1 < Window opts ∧
  length (buffer σ) = Z.to_nat (Window opts) ∧
  len (values σ.1) = Window opts ∧
  movingStats.Window σ = (Ok (Window opts), σ).
Proof.
  intros opts σ.
  assert (Hint : is_int (Window opts)) by (unfold is_int, MinInt, MaxInt; simpl; lia).
  assert (Hw : 1 ≤ Window opts) by (simpl; lia).
  assert (Hhist : history opts [1; 2; 3]%float σ) by history_by_run [1; 2; 3]%float.
  split; [done|].
  destruct (store_invariants opts [1; 2; 3]%float σ Hint Hw Hhist)
    as (H1 & H2 & H3 & H4 & _).
  exact (conj H1 (conj H2 (conj H3 H4))).
Defined.

(** ** A window that is not positive *)

Lemma ring_zero opts acc σ :
  ring opts acc σ → Window opts = 0 →
  acc = [] ∧ buffer σ = [] ∧ len (values σ.1) = 0.
Proof.
  intros (l & A & B & f & Hma & Hh & Hlen & _ & _ & Hf) Hz.
  unfold buffer. rewrite Hma. simpl. rewrite Hh. simpl.
  rewrite Hz in Hlen. destruct B; [|done]. destruct A; [|done].
  destruct f; [lia|done].
Qed.

Lemma Add_zero opts acc vals σ :
  ring opts acc σ → Window opts = 0 →
  Exists (λ v, accepts σ.1 v = true) vals →
  movingStats.Add vals σ = (Panic index_out_of_range, σ).
Proof.
  intros Hr Hz. induction 1 as [v vals Hv|v vals _ IH]; rewrite Add_cons.
  - by rewrite (Add_body_zero opts acc).
  - destruct (accepts σ.1 v) eqn:Hacc.
    + by rewrite (Add_body_zero opts acc).
    + by rewrite Add_body_skip.
Qed.

(** C10, as the code has it: with Window < 0 New panics, since make is
    given a negative length. With Window = 0 New returns a store on a buffer
    of length 0; there Add panics at the first value it does not skip, on
    the write at the cursor (the modulo is never reached), and leaves the
    store as it was; Count(), SlotsFilled(), Avg(), Median(), Min(), Max()
    and Values() return what they return on an empty store. *)
Theorem degenerate_window :
  (∀ opts h, Window opts < 0 → New opts h = (Panic makeslice_len_out_of_range, h)) ∧
  (∀ (L : stats.lib) opts h,
     Window opts = 0 → stats.fails_on_empty L →
     ∃ ma h',
       New opts h = (Ok ma, h') ∧
       ∀ acc σ, history opts acc σ →
         len (values σ.1) = 0 ∧ buffer σ = [] ∧
         (∀ vals, Exists (λ v, accepts σ.1 v = true) vals →
                  movingStats.Add vals σ = (Panic index_out_of_range, σ)) ∧
         movingStats.Count σ = (Ok 0, σ) ∧
         movingStats.SlotsFilled σ = (Ok false, σ) ∧
         movingStats.Avg σ = (Ok 0%float, σ) ∧
         movingStats.Median σ = (Ok 0%float, σ) ∧
         movingStats.Min σ = (Ok 0%float, σ) ∧
         movingStats.Max σ = (Ok 0%float, σ) ∧
         ∃ s σ', movingStats.Values σ = (Ok s, σ') ∧ elems s σ'.2 = [] ∧ len s = 0).
Proof.
  split; [apply New_negative|].
  intros L opts h Hz Hfail.
  eexists _, _. split; [apply New_ok; lia|].
  intros acc σ Hhist.
  assert (Hint : is_int (Window opts)).
  { rewrite Hz. unfold is_int, MinInt, MaxInt. lia. }
  pose proof (history_ring' _ _ _ Hint Hhist) as Hr.
  destruct (ring_zero _ _ _ Hr Hz) as (-> & Hbuf & Hlen).
  pose proof (ring_nothing_accepted _ _ Hr) as Hlive.
  destruct (ring_empty _ _ _ Hfail Hr Hlive) as (HA & HMe & HMi & HMa & HC & HS).
  split; [done|]. split; [done|].
  split; [intros vals Hex; by apply (Add_zero opts [])|].
  repeat (split; [done|]).
  destruct (ring_Values _ _ _ Hr) as (s & σ' & data & HV & Hl & Hd & Hls & _).
  rewrite Hlive in Hl. injection Hl as <-.
  exists s, σ'. by rewrite Hd, Hls.
Qed.

Lemma degenerate_window_witness :
  let opts := {| IgnoreNanValues := false; IgnoreInfValues := false; Window := 0 |} in
  let σ : world :=
    ({| window := 0; values := {| array := Some 1%positive; len := 0; cap := 0 |};
        valPos := 0; slotsFilled := false;
        ignoreNanValues := false; ignoreInfValues := false |},
     {[ 1%positive := [] ]}) in
  New opts ∅ = (Ok σ.1, σ.2) ∧
  movingStats.Add [1%float] σ = (Panic index_out_of_range, σ) ∧
  movingStats.Count σ = (Ok 0, σ).
Proof.
  intros opts σ.
  destruct (proj2 degenerate_window montanaflynn.package opts ∅)
    as (ma0 & h0 & HN & Hall).
  - reflexivity.
  - repeat split; discriminate.
  - assert (HN' : New opts ∅ = (Ok σ.1, σ.2)) by (vm_compute; reflexivity).
    destruct (Hall [] σ) as (_ & _ & HAdd & HCount & _).
    { by apply (history_New _ ∅). }
    split; [exact HN'|]. split; [|exact HCount].
    apply HAdd. by left.
Defined.

(** C10 as stated fails for a negative window: New does not return a
    store, it panics. *)
Lemma negative_window_panics :
  let opts := {| IgnoreNanValues := false; IgnoreInfValues := false; Window := -1 |} in
  Window opts ≤ 0 ∧
  New opts ∅ = (Panic makeslice_len_out_of_range, ∅) ∧
  ¬ ∃ ma h, New opts ∅ = (Ok ma, h).
Proof.
  simpl. split; [lia|]. split; [done|]. intros (ma0 & h & [=]).
Qed.

(** ** The wrapper *)

Section wrapper.
Context {T : Type} {I : MovingStats.methods T}.

Lemma read_locked {A} (m : M (T * heap) A) x h :
  (concurrentMovingStats.on_mux sync.RLock ;;;
   defer (concurrentMovingStats.on_mux sync.RUnlock) (concurrentMovingStats.on_ma m))
    (unlocked x, h)
  = through_lock {| sync.writer := false; sync.readers := 1 |} (m (x, h)).
Proof.
  unfold bind, defer, concurrentMovingStats.on_mux, concurrentMovingStats.on_ma,
    through_lock, unlocked. simpl.
  by destruct (m (x, h)) as [[a|e|] [x' h']].
Qed.

Lemma write_locked {A} (m : M (T * heap) A) x h :
  (concurrentMovingStats.on_mux sync.Lock ;;;
   defer (concurrentMovingStats.on_mux sync.Unlock) (concurrentMovingStats.on_ma m))
    (unlocked x, h)
  = through_lock {| sync.writer := true; sync.readers := 0 |} (m (x, h)).
Proof.
  unfold bind, defer, concurrentMovingStats.on_mux, concurrentMovingStats.on_ma,
    through_lock, unlocked. simpl.
  by destruct (m (x, h)) as [[a|e|] [x' h']].
Qed.

Lemma fmap_through_lock {A B} (g : A → B) held (o : exec A * (T * heap)) :
  match through_lock held o with
  | (Ok a, s') => (Ok (g a), s')
  | (Panic e, s') => (Panic e, s')
  | (Blocked, s') => (Blocked, s')
  end
  = through_lock held
      match o with
      | (Ok a, s') => (Ok (g a), s')
      | (Panic e, s') => (Panic e, s')
      | (Blocked, s') => (Blocked, s')
      end.
Proof. by destruct o as [[a|e|] τ]. Qed.

(** Every call on an unlocked wrapper is the call on the wrapped store. *)
Lemma invoke_wrapper c x h :
  ∃ held, invoke c (unlocked x, h) = through_lock held (invoke c (x, h)).
Proof.
  destruct c; simpl; unfold fmap_M, bind, ret;
    unfold concurrentMovingStats.Add, concurrentMovingStats.Window,
      concurrentMovingStats.SlotsFilled, concurrentMovingStats.Values,
      concurrentMovingStats.Count, concurrentMovingStats.Avg,
      concurrentMovingStats.Median, concurrentMovingStats.Min,
      concurrentMovingStats.Max, concurrentMovingStats.UnsafeDoStat,
      concurrentMovingStats.UnsafeDo;
    rewrite ?read_locked, ?write_locked; eexists; apply fmap_through_lock.
Qed.

Lemma run_wrapper cs : ∀ x h,
  (run cs (unlocked x, h)).1 = (run cs (x, h)).1 ∧
  ma (run cs (unlocked x, h)).2.1 = (run cs (x, h)).2.1 ∧
  (run cs (unlocked x, h)).2.2 = (run cs (x, h)).2.2.
Proof.
  induction cs as [|c cs IH]; intros x h; [done|]. simpl.
  destruct (invoke_wrapper c x h) as [held ->].
  destruct (invoke c (x, h)) as [[r|e|] [x' h']]; simpl; [|done..].
  destruct (IH x' h') as (H1 & H2 & H3).
  destruct (run cs (unlocked x', h')) as [rs' σ'].
  destruct (run cs (x', h')) as [rs τ]. simpl in *. by subst.
Qed.
End wrapper.

(** C7: a call on the wrapper returns what the same call on the wrapped
    store returns and leaves the wrapped store and the heap in the same
    state, with the lock released again; so one goroutine making any
    sequence of calls sees the same outcomes from NewConcurrent's store as
    from New's. *)
Theorem wrapper_is_transparent :
  (∀ T (I : MovingStats.methods T) (c : call) (x : T) (h : heap),
     let bare := invoke c (x, h) in
     let wrapped := invoke c (unlocked x, h) in
     wrapped.1 = bare.1 ∧ ma wrapped.2.1 = bare.2.1 ∧ wrapped.2.2 = bare.2.2 ∧
     (bare.1 ≠ Blocked → mux wrapped.2.1 = sync.zero)) ∧
  (∀ (L : stats.lib) opts h cs,
     match New opts h, NewConcurrent opts h with
     | (Ok ma0, h0), (Ok c0, h0') =>
         c0 = unlocked ma0 ∧ h0' = h0 ∧
         (run cs (c0, h0')).1 = (run cs (ma0, h0)).1 ∧
         ma (run cs (c0, h0')).2.1 = (run cs (ma0, h0)).2.1 ∧
         (run cs (c0, h0')).2.2 = (run cs (ma0, h0)).2.2
     | (Panic e, h0), (Panic e', h0') => e' = e ∧ h0' = h0
     | (Blocked, _), (Blocked, _) => True
     | _, _ => False
     end).
Proof.
  split.
  - intros T I c x h bare wrapped. unfold bare, wrapped.
    destruct (invoke_wrapper c x h) as [held ->].
    by destruct (invoke c (x, h)) as [[r|e|] [x' h']].
  - intros L opts h cs. unfold NewConcurrent, bind, ret.
    destruct (New opts h) as [[ma0|e|] h0]; [|done..].
    split; [done|]. split; [done|]. apply run_wrapper.
Qed.

(** ** Further properties *)

(** X1: with a positive window Add never panics. It returns, and afterwards
    the store holds the values it held with the values Add did not skip
    appended: the live slice is that sequence while it is shorter than w,
    and its last w values, as a multiset, after; Count() is the smaller of
    its length and w. *)
Theorem Add_returns opts acc σ vals :
  is_int (Window opts) → 1 ≤ Window opts → history opts acc σ →
  let stored := acc ++ List.filter (accepts σ.1) vals in
  ∃ σ' data,
    movingStats.Add vals σ = (Ok tt, σ') ∧
    history opts stored σ' ∧
    live σ' = Ok data ∧ data = live_slice σ' ∧
    movingStats.Count σ' = (Ok (Z.min (Z.of_nat (length stored)) (Window opts)), σ') ∧
    (Z.of_nat (length stored) < Window opts → data = stored) ∧
    (Window opts ≤ Z.of_nat (length stored) →
     data ≡ₚ lastn (Z.to_nat (Window opts)) stored).
Proof.
  intros Hint Hw Hhist stored.
  pose proof (history_ring' _ _ _ Hint Hhist) as Hr.
  destruct (Add_total opts vals acc σ) as [σ' HA]; [done|lia|].
  pose proof (Add_ring _ _ _ _ _ Hr HA) as Hr'. fold stored in Hr'.
  pose proof (ring_filled_iff _ _ _ Hr' ltac:(lia)) as Hiff.
  destruct (ring_filledValues _ _ _ Hr') as (s & Hs & Hlen & _ & Hf).
  assert (Hlive : live σ' = Ok (elems s σ'.2)).
  { rewrite (ring_exposed _ _ _ Hr'). unfold exposed. by rewrite Hs. }
  exists σ', (elems s σ'.2). split; [done|]. split.
  { apply (history_step _ acc σ); [done|]. by apply step_Add. }
  split; [done|]. split; [unfold live in Hlive; congruence|].
  rewrite (Count_spec _ s) by done.
  destruct (slotsFilled σ'.1).
  - destruct Hiff as [Hiff _]. specialize (Hiff eq_refl).
    destruct Hf as (Hel & Hperm & Hl & _).
    split; [do 2 f_equal; lia|]. split; [lia|].
    intros _. by rewrite Hel.
  - destruct Hf as (Hel & _ & Hlt). specialize (Hlt ltac:(lia)).
    rewrite Hel in Hlen. split; [do 2 f_equal; lia|].
    split; [done|]. lia.
Qed.

Lemma Add_returns_witness :
  let opts := {| IgnoreNanValues := true; IgnoreInfValues := true; Window := 2 |} in
  let σ : world :=
    ({| window := 2; values := {| array := Some 1%positive; len := 2; cap := 2 |};
        valPos := 1; slotsFilled := false;
        ignoreNanValues := true; ignoreInfValues := true |},
     {[ 1%positive := [1; 0]%float ]}) in
  let stored := ([1] ++ List.filter (accepts σ.1) [nan; 2; infinity; 3])%float in
  ∃ σ' data,
    movingStats.Add [nan; 2; infinity; 3]%float σ = (Ok tt, σ') ∧
    history opts stored σ' ∧
    live σ' = Ok data ∧ data = live_slice σ' ∧
    movingStats.Count σ' = (Ok (Z.min (Z.of_nat (length stored)) (Window opts)), σ') ∧
    (Z.of_nat (length stored) < Window opts → data = stored) ∧
    (Window opts ≤ Z.of_nat (length stored) →
     data ≡ₚ lastn (Z.to_nat (Window opts)) stored).
Proof.
  apply (Add_returns {| IgnoreNanValues := true; IgnoreInfValues := true; Window := 2 |}
           [1%float]).
  - unfold is_int, MinInt, MaxInt. simpl. lia.
  - simpl. lia.
  - history_by_run [1%float].
Defined.

(** X3: UnsafeDo hands out the store's own array: what a reducer writes
    through the slice it receives is in the live slice afterwards. *)
Theorem UnsafeDo_aliases opts acc σ data (i : nat) x :
  is_int (Window opts) → history opts acc σ →
  live σ = Ok data → (i < length data)%nat →
  ∃ σ', movingStats.UnsafeDo (λ s, store s (Z.of_nat i) x ;;; ret None) σ = (Ok None, σ') ∧
        live σ' = Ok (<[i := x]> data).
Proof.
  intros Hint Hhist Hlive Hi.
  pose proof (history_ring' _ _ _ Hint Hhist) as Hr.
  destruct (ring_filledValues _ _ _ Hr) as (s & Hs & Hlen & Halloc & _).
  assert (Hls : data = live_slice σ) by (unfold live in Hlive; congruence).
  rewrite (ring_exposed _ _ _ Hr) in Hlive. unfold exposed in Hlive.
  rewrite Hs in Hlive. injection Hlive as Hel. rewrite Hel in Hlen.
  rewrite (UnsafeDo_spec _ s) by done.
  unfold bind, ret, store.
  destruct (Z.leb_spec 0 (Z.of_nat i)); [|lia].
  destruct (Z.ltb_spec (Z.of_nat i) (len s)); [|lia]. simpl.
  destruct (array s) as [l|] eqn:Hl.
  2: { unfold elems in Hel. rewrite Hl in Hel. subst data. simpl in Hi. lia. }
  simpl. eexists. split; [done|].
  destruct (Halloc _ eq_refl) as [Hv [b Hb]].
  unfold live. f_equal. rewrite Hls in Hi |- *.
  unfold live_slice, buffer in *. simpl. rewrite Hv in *.
  rewrite lookup_alter_eq, Hb in *. simpl in *. rewrite Nat2Z.id.
  destruct (slotsFilled σ.1); rewrite length_take in Hi;
    by rewrite take_insert_lt by lia.
Qed.

Lemma UnsafeDo_aliases_witness :
  let σ : world :=
    ({| window := 3; values := {| array := Some 1%positive; len := 3; cap := 3 |};
        valPos := 2; slotsFilled := false;
        ignoreNanValues := false; ignoreInfValues := false |},
     {[ 1%positive := [7; 9; 0]%float ]}) in
  ∃ σ', movingStats.UnsafeDo (λ s, store s (Z.of_nat 1) 5%float ;;; ret None) σ = (Ok None, σ') ∧
        live σ' = Ok (<[1%nat := 5%float]> [7; 9]%float).
Proof.
  apply (UnsafeDo_aliases
           {| IgnoreNanValues := false; IgnoreInfValues := false; Window := 3 |}
           [7; 9]%float).
  - unfold is_int, MinInt, MaxInt. simpl. lia.
  - history_by_run [7; 9]%float.
  - vm_compute. reflexivity.
  - simpl. lia.
Defined.

(** ** The cursor and the order of the buffer *)

Lemma Add_cursor opts vals : ∀ acc σ σ',
  ring opts acc σ → 0 < Window opts →
  valPos σ.1 = Z.of_nat (length acc) mod Window opts →
  movingStats.Add vals σ = (Ok tt, σ') →
  valPos σ'.1 = Z.of_nat (length (acc ++ List.filter (accepts σ.1) vals)) mod Window opts.
Proof.
  induction vals as [|v vals IH]; intros acc σ σ' Hr Hw Hpos HA.
  { injection HA as <-. simpl. by rewrite app_nil_r. }
  rewrite Add_cons in HA. simpl.
  destruct (accepts σ.1 v) eqn:Hacc.
  - destruct (Add_body_store opts acc v σ) as (σ1 & HB & Hr1 & _ & Hpos1); [done..|].
    rewrite HB in HA.
    replace (acc ++ v :: List.filter (accepts σ.1) vals)
      with ((acc ++ [v]) ++ List.filter (accepts σ1.1) vals).
    + apply IH; [done..| |done].
      rewrite Hpos1, Hpos, length_app, Zplus_mod_idemp_l. simpl. f_equal. lia.
    + rewrite <- app_assoc. simpl. do 2 f_equal.
      apply List.filter_ext. intros x.
      by rewrite (ring_accepts _ _ _ _ Hr1), (ring_accepts _ _ _ _ Hr).
  - rewrite Add_body_skip in HA by done. by apply IH.
Qed.

Lemma steps_cursor opts x y :
  rtc step x y → ring opts x.1 x.2 → 0 < Window opts →
  valPos x.2.1 = Z.of_nat (length x.1) mod Window opts →
  valPos y.2.1 = Z.of_nat (length y.1) mod Window opts.
Proof.
  induction 1 as [|x y z Hxy _ IH]; [done|]. intros Hr Hw Hpos.
  pose proof (step_ring opts _ _ Hxy Hr) as Hr'.
  apply IH; [done..|].
  destruct Hxy as [acc σ vals σ' HA|acc σ σ' [Heq _]]; simpl in *.
  - by apply (Add_cursor opts vals acc σ).
  - by rewrite Heq.
Qed.

Lemma history_cursor opts acc σ :
  is_int (Window opts) → 0 < Window opts → history opts acc σ →
  valPos σ.1 = Z.of_nat (length acc) mod Window opts.
Proof.
  intros [_ Hmax] Hw (h & ma0 & h' & HN & Hsteps).
  apply (steps_cursor opts) in Hsteps; [done| |done|].
  - by apply (New_ring _ h).
  - rewrite New_ok in HN by lia. injection HN as <- <-. simpl.
    by rewrite Z.mod_0_l by lia.
Qed.

(** X5: the state of a store of capacity w ≥ 1 is a function of the number
    n of values it has accepted: the cursor is n mod w, SlotsFilled() is
    true exactly when n ≥ w, and Count() is min(n, w). *)
Theorem state_by_count opts acc σ :
  is_int (Window opts) → 1 ≤ Window opts → history opts acc σ →
  valPos σ.1 = Z.of_nat (length acc) mod Window opts ∧
  movingStats.SlotsFilled σ = (Ok (Window opts <=? Z.of_nat (length acc)), σ) ∧
  movingStats.Count σ = (Ok (Z.min (Z.of_nat (length acc)) (Window opts)), σ).
Proof.
  intros Hint Hw Hhist.
  pose proof (history_ring' _ _ _ Hint Hhist) as Hr.
  split; [apply history_cursor; (done || lia)|].
  pose proof (ring_filled_iff _ _ _ Hr ltac:(lia)) as Hiff.
  destruct (ring_filledValues _ _ _ Hr) as (s & Hs & Hlen & _ & Hf).
  rewrite SlotsFilled_spec, (Count_spec _ s) by done.
  destruct (slotsFilled σ.1).
  - destruct Hiff as [Hiff _]. specialize (Hiff eq_refl).
    destruct Hf as (_ & _ & -> & _).
    destruct (Z.leb_spec (Window opts) (Z.of_nat (length acc))); [|lia].
    split; [done|]. do 2 f_equal. lia.
  - destruct Hf as (Hel & _ & Hlt). specialize (Hlt ltac:(lia)).
    rewrite Hel in Hlen.
    destruct (Z.leb_spec (Window opts) (Z.of_nat (length acc))); [lia|].
    split; [done|]. do 2 f_equal. lia.
Qed.

Lemma state_by_count_witness :
  let σ : world :=
    ({| window := 2; values := {| array := Some 1%positive; len := 2; cap := 2 |};
        valPos := 1; slotsFilled := true;
        ignoreNanValues := false; ignoreInfValues := false |},
     {[ 1%positive := [3; 2]%float ]}) in
  valPos σ.1 = 3 mod 2 ∧
  movingStats.SlotsFilled σ = (Ok (2 <=? 3), σ) ∧
  movingStats.Count σ = (Ok (Z.min 3 2), σ).
Proof.
  apply (state_by_count
           {| IgnoreNanValues := false; IgnoreInfValues := false; Window := 2 |}
           [1; 2; 3]%float).
  - unfold is_int, MinInt, MaxInt. simpl. lia.
  - simpl. lia.
  - history_by_run [1; 2; 3]%float.
Defined.

(** X6: once w values have been accepted the live slice, in the order a
    reducer sees it, is the last w accepted values rotated so that the
    oldest of them sits at the cursor n mod w. *)
Theorem live_slice_order opts acc σ :
  is_int (Window opts) → 1 ≤ Window opts → history opts acc σ →
  Window opts ≤ Z.of_nat (length acc) →
  let w := Z.to_nat (Window opts) in
  let p := (length acc mod w)%nat in
  live σ = Ok (drop (w - p) (lastn w acc) ++ take (w - p) (lastn w acc)) ∧
  buffer σ !! p = lastn w acc !! 0%nat.
Proof.
  intros Hint Hw Hhist Hn w p.
  pose proof (history_ring' _ _ _ Hint Hhist) as Hr.
  pose proof (history_cursor _ _ _ Hint ltac:(lia) Hhist) as Hpos.
  assert (Hfilled : slotsFilled σ.1 = true).
  { apply (ring_filled_iff opts acc); [done|lia..]. }
  destruct (ring_live _ _ _ Hr) as (data & Hlive & Hd).
  rewrite Hfilled in Hd. destruct Hd as [-> _].
  destruct Hr as (l & A & B & f & Hma & Hh & Hlen & _ & _ & Hf).
  rewrite Hma in Hfilled, Hpos. simpl in Hfilled, Hpos. subst f.
  destruct Hf as [_ Hf].
  assert (HB : length B = p).
  { unfold p, w. apply Nat2Z.inj. rewrite Hpos, Nat2Z.inj_mod, Z2Nat.id by lia. done. }
  assert (HA : length A = (w - p)%nat).
  { rewrite length_app in Hlen. unfold w. lia. }
  assert (Hbuf : buffer σ = B ++ A).
  { unfold buffer. rewrite Hma. simpl. by rewrite Hh. }
  rewrite Hlive, Hbuf. fold w in Hf. rewrite Hf, <- HA.
  rewrite drop_app_length, take_app_length. split; [done|].
  rewrite <- HB, lookup_app_r, Nat.sub_diag by lia.
  destruct A as [|a A']; [|done].
  simpl in HA. assert (p < w)%nat; [|lia].
  unfold p. apply Nat.mod_upper_bound. unfold w. lia.
Qed.

Lemma live_slice_order_witness :
  let σ : world :=
    ({| window := 3; values := {| array := Some 1%positive; len := 3; cap := 3 |};
        valPos := 2; slotsFilled := true;
        ignoreNanValues := false; ignoreInfValues := false |},
     {[ 1%positive := [4; 5; 3]%float ]}) in
  live σ = Ok (drop (3 - 5 mod 3)%nat (lastn 3 [1; 2; 3; 4; 5]%float)
               ++ take (3 - 5 mod 3)%nat (lastn 3 [1; 2; 3; 4; 5]%float)) ∧
  buffer σ !! (5 mod 3)%nat = lastn 3 [1; 2; 3; 4; 5]%float !! 0%nat.
Proof.
  apply (live_slice_order
           {| IgnoreNanValues := false; IgnoreInfValues := false; Window := 3 |}
           [1; 2; 3; 4; 5]%float).
  - unfold is_int, MinInt, MaxInt. simpl. lia.
  - simpl. lia.
  - history_by_run [1; 2; 3; 4; 5]%float.
  - simpl. lia.
Defined.

(** ** How calls of Add compose *)

(** X7: passing values to one call of Add is the same as passing them to
    successive calls, in any state and also when a call panics: Add of
    vals1 followed by vals2 is Add of vals1 and then Add of vals2, and
    adding values one call each is adding them in one call. *)
Theorem Add_variadic (vals1 vals2 vals : list float) (σ : world) :
  movingStats.Add (vals1 ++ vals2) σ
  = (movingStats.Add vals1 ;;; movingStats.Add vals2) σ ∧
  Add_each vals σ = movingStats.Add vals σ.
Proof.
  split; [apply Add_app|].
  revert σ. induction vals as [|v vals IH]; intros σ; [done|].
  change (Add_each (v :: vals) σ) with ((movingStats.Add [v] ;;; Add_each vals) σ).
  unfold bind. rewrite Add_single, Add_cons.
  destruct (movingStats.Add_body v σ) as [[[]|e|] σ1]; [apply IH|done..].
Qed.

(** ** What Add leaves alone *)

Lemma Add_body_footprint v σ :
  let σ' := (movingStats.Add_body v σ).2 in
  window σ'.1 = window σ.1 ∧ values σ'.1 = values σ.1 ∧
  ignoreNanValues σ'.1 = ignoreNanValues σ.1 ∧
  ignoreInfValues σ'.1 = ignoreInfValues σ.1 ∧
  dom σ'.2 = dom σ.2 ∧
  (∀ l, array (values σ.1) ≠ Some l → σ'.2 !! l = σ.2 !! l) ∧
  length (buffer σ') = length (buffer σ) ∧
  (slotsFilled σ.1 = true → slotsFilled σ'.1 = true).
Proof.
  destruct σ as [ma h]. unfold movingStats.Add_body. unfold_M. simpl.
  destruct (ignoreNanValues ma && math.IsNaN v); [done|].
  destruct (ignoreInfValues ma && math.IsInf v 0); [done|].
  unfold store, buffer.
  destruct ((0 <=? valPos ma) && (valPos ma <? len (values ma))); [|done].
  destruct (array (values ma)) as [l0|] eqn:Hl0; [|done]. simpl.
  assert (Hheap : dom (alter (λ a, <[Z.to_nat (valPos ma) := v]> a) l0 h) = dom h ∧
            (∀ l, Some l0 ≠ Some l →
               alter (λ a, <[Z.to_nat (valPos ma) := v]> a) l0 h !! l = h !! l) ∧
            length (default [] (alter (λ a, <[Z.to_nat (valPos ma) := v]> a) l0 h !! l0))
            = length (default [] (h !! l0))).
  { split; [apply dom_alter_L|]. split.
    - intros l Hl. apply lookup_alter_ne. congruence.
    - rewrite lookup_alter_eq. destruct (h !! l0); [|done]. simpl.
      apply length_insert. }
  destruct Hheap as (Hdom & Hother & Hlen).
  destruct (int_rem (int_add (valPos ma) 1) (window ma)) as [pos|e|]; simpl;
    [|by rewrite Hl0..].
  destruct (negb (slotsFilled ma) && (pos =? 0)) eqn:Hset; simpl; rewrite Hl0.
  - repeat split; done.
  - repeat split; done.
Qed.

(** X8: whatever the state and whether it returns or panics, Add changes
    nothing but the cursor, the filled flag and elements of its own array:
    the window, the slice header and the filter flags stay, nothing is
    allocated or freed, every other array keeps its contents, the buffer
    keeps its length and a set filled flag stays set. *)
Theorem Add_footprint (vals : list float) (σ : world) :
  let σ' := (movingStats.Add vals σ).2 in
  window σ'.1 = window σ.1 ∧ values σ'.1 = values σ.1 ∧
  ignoreNanValues σ'.1 = ignoreNanValues σ.1 ∧
  ignoreInfValues σ'.1 = ignoreInfValues σ.1 ∧
  dom σ'.2 = dom σ.2 ∧
  (∀ l, array (values σ.1) ≠ Some l → σ'.2 !! l = σ.2 !! l) ∧
  length (buffer σ') = length (buffer σ) ∧
  (slotsFilled σ.1 = true → slotsFilled σ'.1 = true).
Proof.
  revert σ. induction vals as [|v vals IH]; intros σ; [done|].
  rewrite Add_cons.
  pose proof (Add_body_footprint v σ) as Hb.
  destruct (movingStats.Add_body v σ) as [[[]|e|] σ1]; [|exact Hb..].
  simpl in Hb. destruct Hb as (H1 & H2 & H3 & H4 & H5 & H6 & H7 & H8).
  specialize (IH σ1). simpl in IH.
  destruct IH as (I1 & I2 & I3 & I4 & I5 & I6 & I7 & I8). simpl.
  rewrite I1, I2, I3, I4, I5, I7. repeat split; try done.
  - intros l Hl. rewrite I6 by (by rewrite H2). by apply H6.
  - auto.
Qed.

(** X9: stores do not interfere. Building a new store leaves every store
    that exists as it is, and Add on a store with a different array leaves
    it as it is: its history still holds and its live slice is the same. *)
Theorem stores_do_not_interfere opts acc ma h :
  is_int (Window opts) → history opts acc (ma, h) →
  (∀ opts' ma' h',
     New opts' h = (Ok ma', h') →
     array (values ma') ≠ array (values ma) ∧
     history opts acc (ma, h') ∧ live (ma, h') = live (ma, h)) ∧
  (∀ ma' vals,
     array (values ma') ≠ array (values ma) →
     let h' := (movingStats.Add vals (ma', h)).2.2 in
     history opts acc (ma, h') ∧ live (ma, h') = live (ma, h)).
Proof.
  intros Hint Hhist.
  pose proof (history_ring' _ _ _ Hint Hhist) as Hr.
  assert (Hkeep : ∀ h', frame (ma, h) (ma, h') →
            history opts acc (ma, h') ∧ live (ma, h') = live (ma, h)).
  { intros h' Hfr. split.
    - apply (history_step _ acc (ma, h)); [done|]. by apply step_frame.
    - by destruct (frame_live _ _ _ _ Hr Hfr). }
  destruct Hr as (l & A & B & f & Hma & Hh & _). simpl in Hma, Hh.
  split.
  - intros opts' ma' h' HN.
    destruct (Z.lt_ge_cases (Window opts') 0) as [Hneg|Hw].
    { rewrite New_negative in HN by done. discriminate. }
    rewrite New_ok in HN by done. injection HN as <- <-. simpl.
    assert (Hne : fresh (dom h) ≠ l).
    { intros Heq. by rewrite <- Heq, fresh_unallocated in Hh. }
    split; [rewrite Hma; simpl; congruence|].
    apply Hkeep. split; [done|]. simpl. rewrite Hma. simpl.
    intros l0 [= <-]. by rewrite lookup_insert_ne.
  - intros ma' vals Hne h'. apply Hkeep. split; [done|]. simpl.
    intros l0 Hl0. unfold h'.
    destruct (Add_footprint vals (ma', h)) as (_ & _ & _ & _ & _ & Hother & _).
    apply Hother. simpl. congruence.
Qed.

Lemma stores_do_not_interfere_witness :
  let opts := {| IgnoreNanValues := false; IgnoreInfValues := false; Window := 3 |} in
  let ma : movingStats :=
    {| window := 3; values := {| array := Some 1%positive; len := 3; cap := 3 |};
       valPos := 2; slotsFilled := false;
       ignoreNanValues := false; ignoreInfValues := false |} in
  let ma' : movingStats :=
    {| window := 2; values := {| array := Some 2%positive; len := 2; cap := 2 |};
       valPos := 0; slotsFilled := false;
       ignoreNanValues := false; ignoreInfValues := false |} in
  let h : heap := <[ 2%positive := [0; 0]%float ]> {[ 1%positive := [7; 9; 0]%float ]} in
  let h' := (movingStats.Add [5%float] (ma', h)).2.2 in
  history opts [7; 9]%float (ma, h') ∧ live (ma, h') = live (ma, h).
Proof.
  intros opts ma ma' h.
  assert (Hint : is_int (Window opts)) by (unfold is_int, MinInt, MaxInt; simpl; lia).
  assert (Hh0 : history opts [7; 9]%float (ma, {[ 1%positive := [7; 9; 0]%float ]}))
    by history_by_run [7; 9]%float.
  destruct (stores_do_not_interfere opts _ _ _ Hint Hh0) as [HNew _].
  destruct (HNew {| IgnoreNanValues := false; IgnoreInfValues := false; Window := 2 |}
              ma' h) as (_ & Hh1 & _); [vm_compute; reflexivity|].
  apply (proj2 (stores_do_not_interfere opts _ _ _ Hint Hh1) ma' [5%float]).
  simpl. discriminate.
Defined.

(** ** Infinities *)

Lemma IsInf_not_IsNaN v : math.IsInf v 0 = true → math.IsNaN v = false.
Proof.
  intros Hinf. destruct (math.IsNaN v) eqn:Hnan; [|done].
  apply IsNaN_not_IsInf in Hnan. congruence.
Qed.

(** X4: with ignoreInfValues set, adding +infinity or -infinity leaves the
    store as it is and Values() never holds an infinity; without it an
    infinity that is added is in Values() afterwards. *)
Theorem Add_filter_Inf opts acc σ v :
  is_int (Window opts) → 1 ≤ Window opts → history opts acc σ →
  (IgnoreInfValues opts = true →
     (math.IsInf v 0 = true → movingStats.Add [v] σ = (Ok tt, σ)) ∧
     ∃ s σ', movingStats.Values σ = (Ok s, σ') ∧
             ∀ x, x ∈ elems s σ'.2 → math.IsInf x 0 = false) ∧
  (IgnoreInfValues opts = false → math.IsInf v 0 = true →
     ∃ σ1 s σ', movingStats.Add [v] σ = (Ok tt, σ1) ∧
                movingStats.Values σ1 = (Ok s, σ') ∧
                v ∈ elems s σ'.2).
Proof.
  intros Hint Hw Hhist.
  pose proof (history_ring' _ _ _ Hint Hhist) as Hr.
  assert (Hflags : ignoreNanValues σ.1 = IgnoreNanValues opts ∧
                   ignoreInfValues σ.1 = IgnoreInfValues opts).
  { destruct Hr as (l & A & B & f & -> & _). done. }
  destruct Hflags as [Hnan Hinf].
  split.
  - intros Hopt. split.
    + intros HvInf. rewrite Add_single, Add_body_skip; [done|].
      apply accepts_false. rewrite Hinf, Hopt, HvInf, (IsInf_not_IsNaN _ HvInf).
      right. by rewrite andb_false_r.
    + destruct (ring_Values _ _ _ Hr) as (s & σ' & data & HV & Hlive & Hdata & _).
      exists s, σ'. split; [done|]. intros x Hx. rewrite Hdata in Hx.
      pose proof (live_accepted _ _ _ _ _ Hint Hhist Hlive Hx) as Hacc.
      apply accepts_true in Hacc as [_ Hacc].
      rewrite Hinf, Hopt in Hacc. done.
  - intros Hopt HvInf.
    assert (Hacc : accepts σ.1 v = true).
    { apply accepts_true. rewrite Hinf, Hopt, (IsInf_not_IsNaN _ HvInf).
      by rewrite andb_false_r. }
    destruct (Add_body_store opts acc v σ) as (σ1 & HB & Hr1 & _); [done|lia|done|].
    destruct (ring_Values _ _ _ Hr1) as (s & σ' & data & HV & Hlive & Hdata & _).
    exists σ1, s, σ'. rewrite Add_single. split; [done|]. split; [done|].
    rewrite Hdata.
    destruct (ring_live _ _ _ Hr1) as (data' & Hlive' & Hd).
    rewrite Hlive in Hlive'. injection Hlive' as <-.
    destruct (slotsFilled σ1.1).
    + destruct Hd as [_ Hperm]. rewrite Hperm. apply last_in_lastn. lia.
    + rewrite Hd. apply elem_of_app. right. by left.
Qed.

Lemma Add_filter_Inf_witness :
  let opts := {| IgnoreNanValues := false; IgnoreInfValues := true; Window := 3 |} in
  let σ : world :=
    ({| window := 3; values := {| array := Some 1%positive; len := 3; cap := 3 |};
        valPos := 1; slotsFilled := false;
        ignoreNanValues := false; ignoreInfValues := true |},
     {[ 1%positive := [1; 0; 0]%float ]}) in
  (is_int (Window opts) ∧ 1 ≤ Window opts ∧ history opts [1%float] σ) ∧
  movingStats.Add [neg_infinity] σ = (Ok tt, σ).
Proof.
  intros opts σ.
  assert (Hint : is_int (Window opts)) by (unfold is_int, MinInt, MaxInt; simpl; lia).
  assert (Hw : 1 ≤ Window opts) by (simpl; lia).
  assert (Hhist : history opts [1%float] σ) by history_by_run [1%float].
  split; [done|].
  destruct (Add_filter_Inf opts [1%float] σ neg_infinity Hint Hw Hhist) as (Hskip & _).
  apply (Hskip eq_refl). reflexivity.
Defined.

(** ** Turnover of the window *)

Lemma lastn_app {A} n (l1 l2 : list A) :
  (n ≤ length l2)%nat → lastn n (l1 ++ l2) = lastn n l2.
Proof.
  intros Hn. unfold lastn. rewrite length_app, drop_app_ge by lia.
  f_equal. lia.
Qed.

(** X11: the window forgets. When one call of Add stores at least w values
    on a store of capacity w ≥ 1, the live slice afterwards holds, as a
    multiset, the last w of them, whatever the store held before. *)
Theorem window_turnover opts acc σ vals :
  is_int (Window opts) → 1 ≤ Window opts → history opts acc σ →
  Window opts ≤ Z.of_nat (length (List.filter (accepts σ.1) vals)) →
  ∃ σ' data,
    movingStats.Add vals σ = (Ok tt, σ') ∧ live σ' = Ok data ∧
    data ≡ₚ lastn (Z.to_nat (Window opts)) (List.filter (accepts σ.1) vals).
Proof.
  intros Hint Hw Hhist Hn.
  pose proof (history_ring' _ _ _ Hint Hhist) as Hr.
  destruct (Add_total opts vals acc σ) as [σ' HA]; [done|lia|].
  pose proof (Add_ring _ _ _ _ _ Hr HA) as Hr'.
  destruct (ring_live _ _ _ Hr') as (data & Hlive & Hd).
  exists σ', data. split; [done|]. split; [done|].
  assert (Hfilled : slotsFilled σ'.1 = true).
  { apply (ring_filled_iff _ _ _ Hr'); [lia|]. rewrite length_app. lia. }
  rewrite Hfilled in Hd. destruct Hd as [_ ->].
  by rewrite lastn_app by lia.
Qed.

Lemma window_turnover_witness :
  let σ : world :=
    ({| window := 2; values := {| array := Some 1%positive; len := 2; cap := 2 |};
        valPos := 1; slotsFilled := false;
        ignoreNanValues := true; ignoreInfValues := false |},
     {[ 1%positive := [1; 0]%float ]}) in
  ∃ σ' data,
    movingStats.Add [5; nan; 6; 7]%float σ = (Ok tt, σ') ∧ live σ' = Ok data ∧
    data ≡ₚ lastn 2 (List.filter (accepts σ.1) [5; nan; 6; 7]%float).
Proof.
  apply (window_turnover
           {| IgnoreNanValues := true; IgnoreInfValues := false; Window := 2 |}
           [1%float]).
  - unfold is_int, MinInt, MaxInt. simpl. lia.
  - simpl. lia.
  - history_by_run [1%float].
  - vm_compute. discriminate.
Defined.

(** ** Copies do not alias each other *)

(** X10: two calls of Values() return slices on two different arrays, both
    holding the live slice (buffer[0..capacity) once the slots are filled,
    buffer[0..writeCursor) before, so the values accepted so far or the last
    w of them), each with capacity equal to its length; writing into the
    second leaves the first as it is. *)
Theorem Values_copies_are_distinct opts acc σ :
  is_int (Window opts) → history opts acc σ →
  ∃ s1 σ1 s2 σ2 data,
    movingStats.Values σ = (Ok s1, σ1) ∧ movingStats.Values σ1 = (Ok s2, σ2) ∧
    live σ = Ok data ∧ data = live_slice σ ∧
    (if slotsFilled σ.1
     then data ≡ₚ lastn (Z.to_nat (Window opts)) acc
     else data = acc) ∧
    array s1 ≠ array s2 ∧ cap s1 = len s1 ∧ cap s2 = len s2 ∧
    elems s1 σ2.2 = data ∧ elems s2 σ2.2 = data ∧
    ∀ ws r h3, writes s2 ws σ2.2 = (r, h3) → elems s1 h3 = data.
Proof.
  intros Hint Hhist.
  pose proof (history_ring' _ _ _ Hint Hhist) as Hr.
  destruct (ring_filledValues _ _ _ Hr) as (s0 & Hs0 & Hlen0 & Halloc0 & _).
  assert (HV1 := Values_spec σ s0 Hs0 Hlen0 (λ l Hl, proj2 (Halloc0 l Hl))).
  set (l1 := fresh (dom σ.2)) in *. set (data := elems s0 σ.2) in *.
  set (σ1 := (σ.1, <[l1 := data]> σ.2) : world) in *.
  assert (Hfr : frame σ σ1).
  { split; [done|]. intros l Hl. simpl. rewrite lookup_insert_ne; [done|].
    intros <-. destruct Hr as (l0 & A & B & f & Hma & Hh & _).
    rewrite Hma in Hl. simpl in Hl. injection Hl as ->.
    unfold l1 in Hh. by rewrite fresh_unallocated in Hh. }
  pose proof (frame_ring _ _ _ _ Hr Hfr) as Hr1.
  destruct (frame_live _ _ _ _ Hr Hfr) as [Hlive1 _].
  destruct (ring_filledValues _ _ _ Hr1) as (s0' & Hs0' & Hlen0' & Halloc0' & _).
  assert (HV2 := Values_spec σ1 s0' Hs0' Hlen0' (λ l Hl, proj2 (Halloc0' l Hl))).
  assert (Hdata' : elems s0' σ1.2 = data).
  { rewrite (ring_exposed _ _ _ Hr), (ring_exposed _ _ _ Hr1) in Hlive1.
    unfold exposed in Hlive1. rewrite Hs0, Hs0' in Hlive1. by injection Hlive1. }
  rewrite Hdata' in *.
  set (l2 := fresh (dom σ1.2)) in *.
  assert (Hne : l2 ≠ l1).
  { intros Heq. pose proof (fresh_unallocated σ1.2) as Hf. fold l2 in Hf.
    rewrite Heq in Hf. simpl in Hf. by rewrite lookup_insert_eq in Hf. }
  assert (Hlook : (<[l2 := data]> σ1.2) !! l1 = Some data).
  { rewrite lookup_insert_ne by done. simpl. apply lookup_insert_eq. }
  eexists _, _, _, _, data.
  split; [exact HV1|]. split; [exact HV2|].
  assert (Hlive : live σ = Ok data).
  { rewrite (ring_exposed _ _ _ Hr). unfold exposed. by rewrite Hs0. }
  split; [done|]. split; [unfold live in Hlive; congruence|].
  split.
  { destruct (ring_live _ _ _ Hr) as (data' & Hlive' & Hd).
    rewrite Hlive in Hlive'. injection Hlive' as <-.
    destruct (slotsFilled σ.1); [by destruct Hd|done]. }
  simpl.
  split; [congruence|]. split; [done|]. split; [done|].
  assert (Hel1 : ∀ h3 : heap, h3 !! l1 = Some data →
            elems {| array := Some l1; len := len s0; cap := len s0 |} h3 = data).
  { intros h3 Hh3. unfold elems. simpl. rewrite Hh3. simpl.
    by rewrite Hlen0, Nat2Z.id, firstn_all. }
  split; [by apply Hel1|]. split; [by apply elems_insert_same|].
  intros ws r h3 Hws. apply Hel1.
  rewrite (writes_frame _ _ _ _ _ Hws); [done|]. simpl. congruence.
Qed.

Lemma Values_copies_are_distinct_witness :
  let σ : world :=
    ({| window := 3; values := {| array := Some 1%positive; len := 3; cap := 3 |};
        valPos := 2; slotsFilled := false;
        ignoreNanValues := false; ignoreInfValues := false |},
     {[ 1%positive := [7; 9; 0]%float ]}) in
  ∃ s1 σ1 s2 σ2 data,
    movingStats.Values σ = (Ok s1, σ1) ∧ movingStats.Values σ1 = (Ok s2, σ2) ∧
    live σ = Ok data ∧ data = live_slice σ ∧
    (if slotsFilled σ.1 then data ≡ₚ lastn 3 [7; 9]%float else data = [7; 9]%float) ∧
    array s1 ≠ array s2 ∧ cap s1 = len s1 ∧ cap s2 = len s2 ∧
    elems s1 σ2.2 = data ∧ elems s2 σ2.2 = data ∧
    ∀ ws r h3, writes s2 ws σ2.2 = (r, h3) → elems s1 h3 = data.
Proof.
  apply (Values_copies_are_distinct
           {| IgnoreNanValues := false; IgnoreInfValues := false; Window := 3 |}
           [7; 9]%float).
  - unfold is_int, MinInt, MaxInt. simpl. lia.
  - history_by_run [7; 9]%float.
Defined.

(** ** The lock of the wrapper *)

Section lock.
Context {T : Type} {I : MovingStats.methods T}.

Lemma read_locked_again {A} (m : M (T * heap) A) x h rd :
  0 < rd →
  (concurrentMovingStats.on_mux sync.RLock ;;;
   defer (concurrentMovingStats.on_mux sync.RUnlock) (concurrentMovingStats.on_ma m))
    ({| ma := x; mux := {| sync.writer := false; sync.readers := rd |} |}, h)
  = match m (x, h) with
    | (Blocked, τ) =>
        (Blocked, ({| ma := τ.1;
                      mux := {| sync.writer := false; sync.readers := rd + 1 |} |}, τ.2))
    | (r, τ) =>
        (r, ({| ma := τ.1;
                mux := {| sync.writer := false; sync.readers := rd |} |}, τ.2))
    end.
Proof.
  intros Hrd.
  unfold bind, defer, concurrentMovingStats.on_mux, concurrentMovingStats.on_ma,
    sync.RLock, sync.RUnlock. simpl.
  destruct (m (x, h)) as [[a|e|] [x' h']]; simpl; [| |done];
    (destruct (Z.leb_spec (rd + 1) 0); [lia|]);
    by replace (rd + 1 - 1) with rd by lia.
Qed.

Lemma invoke_read_locked c x h rd :
  0 < rd → (∀ vals, c ≠ call_Add vals) →
  invoke c ({| ma := x; mux := {| sync.writer := false; sync.readers := rd |} |}, h)
  = match invoke c (x, h) with
    | (Blocked, τ) =>
        (Blocked, ({| ma := τ.1;
                      mux := {| sync.writer := false; sync.readers := rd + 1 |} |}, τ.2))
    | (r, τ) =>
        (r, ({| ma := τ.1;
                mux := {| sync.writer := false; sync.readers := rd |} |}, τ.2))
    end.
Proof.
  intros Hrd Hc.
  destruct c; [by destruct (Hc vals)|..]; simpl; unfold fmap_M;
    unfold concurrentMovingStats.Window,
      concurrentMovingStats.SlotsFilled, concurrentMovingStats.Values,
      concurrentMovingStats.Count, concurrentMovingStats.Avg,
      concurrentMovingStats.Median, concurrentMovingStats.Min,
      concurrentMovingStats.Max, concurrentMovingStats.UnsafeDoStat,
      concurrentMovingStats.UnsafeDo;
    unfold bind at 1; rewrite read_locked_again by done; unfold bind, ret;
    match goal with
    | |- context [ ?f (x, h) ] => destruct (f (x, h)) as [[a|e|] [x' h']]
    end; done.
Qed.
End lock.

(** X2: the lock of the wrapper, as one goroutine meets it. While the write
    lock is held every call on the wrapper blocks and changes nothing.
    While read locks are held (as one is while UnsafeDo runs a reducer), Add
    blocks and changes nothing, and every other call goes through: it
    returns what the wrapped store returns and leaves the same number of
    read locks held. *)
Theorem lock_discipline {T} {I : MovingStats.methods T}
    (c : call) (x : T) (h : heap) (m : sync.RWMutex) :
  let σ := ({| ma := x; mux := m |}, h) in
  (sync.writer m = true → invoke c σ = (Blocked, σ)) ∧
  (sync.writer m = false → 0 < sync.readers m →
     match c with
     | call_Add _ => invoke c σ = (Blocked, σ)
     | _ => (invoke c σ).1 = (invoke c (x, h)).1 ∧
            ma (invoke c σ).2.1 = (invoke c (x, h)).2.1 ∧
            (invoke c σ).2.2 = (invoke c (x, h)).2.2 ∧
            ((invoke c (x, h)).1 ≠ Blocked → mux (invoke c σ).2.1 = m)
     end).
Proof.
  intros σ. unfold σ. destruct m as [wr rd]. simpl. split.
  - intros ->. by destruct c.
  - intros -> Hrd.
    assert (HAdd : ∀ vals,
              invoke (call_Add vals)
                ({| ma := x; mux := {| sync.writer := false; sync.readers := rd |} |}, h)
              = (Blocked,
                 ({| ma := x; mux := {| sync.writer := false; sync.readers := rd |} |}, h))).
    { intros vals. simpl.
      unfold fmap_M, concurrentMovingStats.Add, bind, concurrentMovingStats.on_mux,
        sync.Lock. simpl. destruct (Z.ltb_spec 0 rd); [done|lia]. }
    destruct c; [apply HAdd|..];
      rewrite invoke_read_locked by done;
      match goal with
      | |- context [ invoke ?c (x, h) ] => destruct (invoke c (x, h)) as [[a|e|] [x' h']]
      end; done.
Qed.

Lemma lock_discipline_witness :
  let c : concurrentMovingStats movingStats :=
    {| ma := {| window := 2;
                values := {| array := Some 1%positive; len := 2; cap := 2 |};
                valPos := 1; slotsFilled := false;
                ignoreNanValues := false; ignoreInfValues := false |};
       mux := {| sync.writer := false; sync.readers := 1 |} |} in
  let h : heap := {[ 1%positive := [4; 0]%float ]} in
  invoke (I := concurrentMovingStats.impl (I := movingStats.impl (L := montanaflynn.package)))
    (call_Add [5%float]) (c, h) = (Blocked, (c, h)).
Proof.
  intros c h.
  apply (proj2 (lock_discipline
                  (I := movingStats.impl (L := montanaflynn.package))
                  (call_Add [5%float]) (ma c) h (mux c))).
  - reflexivity.
  - simpl. lia.
Defined.
